(** * SkylinePathfinder: a shallow embedding of the route engine

    The Python sources embedded here are
      - model/euclidean_node.py   (EuclideanNode)
      - model/functions.py        (euclidean_dist, naive_knn, project)
      - model/bases.py            (NodeList filters)
      - model/euclidean_graph.py  (EuclideanGraph.connect_all)
      - tsp/solve_tsp.py          (ReducedGraph, tsp_solver and its helpers)

    Conventions.
      - The graph algorithms take Python numbers as real numbers ([R]),
        with [x ** 0.5] as [sqrt x]: rounding, overflow and NaN are outside
        that reading.  The distance function is embedded a second time
        over binary64 floats (module [Binary64]), with rounding, overflow
        and NaN, and the laws of the distance are stated there.
      - A Python exception is a value of [exn]; a function that may raise
        returns a [result].
      - A [dict] is an association list in insertion order; assigning to an
        existing key keeps the key's position, as in Python.
      - Library code that is not part of the repository (shapely's
        projection, networkx's A* search, the iteration order of a [set])
        is a Section variable. *)

From Stdlib Require Import Floats.
From Stdlib Require Import Reals Lra Psatz Lia.
From Stdlib Require Import List String Ascii ZArith Bool Permutation.
From Stdlib Require Import DecimalString Sorted.
Import ListNotations.

Set Implicit Arguments.

(** Python's [len] on a list ([length] alone is the length of a string). *)
Abbreviation len := List.length.

(** ** Exceptions and results *)

Inductive exn : Type :=
| ValueError (msg : string)
| OverflowError
| IndexError
| KeyError
| NotImplementedError (msg : string)
| TypeError
| NetworkXNoPath.

Inductive result (A : Type) : Type :=
| Ok (a : A)
| Raise (e : exn).

Arguments Ok {A} a.
Arguments Raise {A} e.

Definition bind {A B : Type} (m : result A) (k : A -> result B) : result B :=
  match m with
  | Ok a => k a
  | Raise e => Raise e
  end.

Notation "x <- m ;; k" := (bind m (fun x => k))
  (at level 61, m at next level, right associativity).
Notation "' p <- m ;; k" := (bind m (fun x => match x with p => k end))
  (at level 61, p pattern, m at next level, right associativity).

(** Evaluating a generator expression or comprehension whose body may
    raise: elements are visited left to right and the first exception
    aborts the whole expression. *)
Fixpoint mapM {A B : Type} (f : A -> result B) (l : list A) : result (list B) :=
  match l with
  | [] => Ok []
  | x :: l' => y <- f x ;; ys <- mapM f l' ;; Ok (y :: ys)
  end.


(** ** model/euclidean_node.py *)

Definition point : Type := list R.

Record EuclideanNode : Type := mkNode {
  type  : string;
  name  : string;
  floor : Z;
  coord : point
}.

Definition point_eq_dec (p q : point) : {p = q} + {p <> q} :=
  list_eq_dec Req_dec_T p q.

(** Structural equality of nodes.  The name is compared first, so that the
    decision on two nodes with different names never looks at coordinates. *)
Definition node_eq_dec (n m : EuclideanNode) : {n = m} + {n <> m}.
Proof.
  destruct n as [t1 n1 f1 c1], m as [t2 n2 f2 c2].
  destruct (string_dec n1 n2) as [Hn | Hn]; [ | right; congruence ].
  destruct (string_dec t1 t2) as [Ht | Ht]; [ | right; congruence ].
  destruct (Z.eq_dec f1 f2) as [Hf | Hf]; [ | right; congruence ].
  destruct (point_eq_dec c1 c2) as [Hc | Hc]; [ | right; congruence ].
  left; congruence.
Defined.

Definition node_eqb (n m : EuclideanNode) : bool :=
  if node_eq_dec n m then true else false.

(** *** Hashing

    [EuclideanNode.__hash__] is [hash((type, name, floor, coord))] and
    [__eq__] compares the two hashes.  CPython's hash of an [int] is fixed
    by the language implementation: the value reduced modulo the Mersenne
    prime [2^61 - 1], keeping the sign, with [-1] replaced by [-2].  The
    hash of a string (salted per process), of a float and the mixing
    function of a tuple are left as parameters; a tuple's hash is a
    function of its items' hashes. *)

Definition PyHASH_MODULUS : Z := 2 ^ 61 - 1.

Definition hash_int (n : Z) : Z :=
  let h := (Z.sgn n * (Z.abs n mod PyHASH_MODULUS))%Z in
  if (h =? -1)%Z then (-2)%Z else h.

Section Hashing.

Variable hash_str : string -> Z.
Variable hash_float : R -> Z.
Variable hash_tuple : list Z -> Z.

Definition hash_coord (c : point) : Z := hash_tuple (map hash_float c).

Definition hash_node (n : EuclideanNode) : Z :=
  hash_tuple [hash_str (type n); hash_str (name n);
              hash_int (floor n); hash_coord (coord n)].

(** [EuclideanNode.__eq__] between two EuclideanNode objects:
    [type(self) == type(other)] holds, the rest is the comparison of
    hashes. *)
Definition node_eq (n m : EuclideanNode) : bool :=
  (hash_node n =? hash_node m)%Z.

End Hashing.

(** ** model/functions.py: distance *)

Local Open Scope R_scope.

(** Python's [sum]: a left fold from [0]. *)
Definition sum_R (l : list R) : R := fold_left Rplus l 0.

Definition dim_mismatch_msg : string :=
  "Points must have the same number of dimensions.".

Definition euclidean_dist (p1 p2 : point) : result R :=
  if negb (len p1 =? len p2)%nat then
    Raise (ValueError dim_mismatch_msg)
  else
    Ok (sqrt (sum_R (map (fun '(d1, d2) => (d1 - d2) ^ 2) (combine p1 p2)))).

Definition euclidean_dist_nodes (n1 n2 : EuclideanNode) : result R :=
  euclidean_dist (coord n1) (coord n2).

(** The same function on binary64 floats, the numbers CPython computes
    with when the coordinates are floats.  [d1 - d2] and the additions of
    [sum] round to nearest and never raise; [x ** 2] is taken as the
    rounded square and [x ** 0.5] as the rounded square root.  The squares
    are added from left to right (CPython 3.12 and later compensate the
    rounding of these additions; the sums in the examples below are exact
    either way). *)
Module Binary64.

(** Neither an infinity nor a NaN. *)
Definition finite (x : float) : bool :=
  match Prim2SF x with
  | S754_zero _ | S754_finite _ _ _ => true
  | _ => false
  end.

(** [x ** 2]: CPython raises OverflowError when the square of a finite
    number is out of range, and lets an underflow pass silently. *)
Definition square (x : float) : result float :=
  let y := PrimFloat.mul x x in
  if finite x && negb (finite y) then Raise OverflowError else Ok y.

(** Python's [sum]: a left fold from [0]. *)
Definition sum (l : list float) : float := fold_left PrimFloat.add l 0%float.

Definition euclidean_dist (p1 p2 : list float) : result float :=
  if negb (len p1 =? len p2)%nat then
    Raise (ValueError dim_mismatch_msg)
  else
    squares <- mapM (fun '(d1, d2) => square (PrimFloat.sub d1 d2))
                    (combine p1 p2) ;;
    Ok (PrimFloat.sqrt (sum squares)).

End Binary64.

(** ** Python built-ins used by the sources *)


Section Builtins.

Variable A : Type.

(** [min(iterable, key=f)]: the first item whose key is minimal; every
    later item replaces the current one only when its key is strictly
    smaller. *)
Fixpoint min_loop (key : A -> result R) (best : A) (best_key : R)
         (l : list A) : result A :=
  match l with
  | [] => Ok best
  | x :: l' =>
      k <- key x ;;
      if Rlt_dec k best_key then min_loop key x k l'
      else min_loop key best best_key l'
  end.

Definition py_min (key : A -> result R) (l : list A) : result A :=
  match l with
  | [] => Raise (ValueError "min() arg is an empty sequence")
  | x :: l' => k <- key x ;; min_loop key x k l'
  end.




(** [l[-k]] for [k >= 1]. *)
Definition index_from_end (l : list A) (k : nat) : result A :=
  if (k <=? len l)%nat then
    match nth_error l (len l - k) with
    | Some x => Ok x
    | None => Raise IndexError
    end
  else Raise IndexError.

(** A [for] loop whose body may raise, threading the loop's state. *)
Fixpoint foldM {S : Type} (f : S -> A -> result S) (l : list A) (s : S)
  : result S :=
  match l with
  | [] => Ok s
  | x :: l' => s' <- f s x ;; foldM f l' s'
  end.

(** [itertools.combinations(l, 2)]: pairs by position, in order. *)
Fixpoint combinations2 (l : list A) : list (A * A) :=
  match l with
  | [] => []
  | x :: l' => map (pair x) l' ++ combinations2 l'
  end.

(** [itertools.permutations(l)]: every ordering of the positions of [l],
    in lexicographic order of positions. *)
Fixpoint selections (l : list A) : list (A * list A) :=
  match l with
  | [] => []
  | x :: l' => (x, l') :: map (fun '(y, r) => (y, x :: r)) (selections l')
  end.

Fixpoint permutations_n (n : nat) (l : list A) : list (list A) :=
  match n with
  | O => [[]]
  | S n' =>
      flat_map (fun '(x, r) => map (cons x) (permutations_n n' r))
               (selections l)
  end.

Definition permutations (l : list A) : list (list A) :=
  permutations_n (len l) l.

End Builtins.

(** ** Dictionaries *)

Section Dict.

Variables K V : Type.
Variable K_eq_dec : forall a b : K, {a = b} + {a <> b}.

Fixpoint dict_get (d : list (K * V)) (k : K) : option V :=
  match d with
  | [] => None
  | (k', v) :: d' => if K_eq_dec k k' then Some v else dict_get d' k
  end.

(** [d[k]] *)
Definition getitem (d : list (K * V)) (k : K) : result V :=
  match dict_get d k with
  | Some v => Ok v
  | None => Raise KeyError
  end.

(** [d[k] = v] *)
Fixpoint setitem (d : list (K * V)) (k : K) (v : V) : list (K * V) :=
  match d with
  | [] => [(k, v)]
  | (k', v') :: d' =>
      if K_eq_dec k k' then (k', v) :: d' else (k', v') :: setitem d' k v
  end.

End Dict.

(** ** networkx.Graph, as the sources use it

    The adjacency structure [_adj] is a dict from node to a dict from
    neighbour to the edge's attribute dict, of which only ['weight'] is ever
    set. *)

Definition attr : Type := option R.
Definition Graph : Type := list (EuclideanNode * list (EuclideanNode * attr)).

(** [for node in graph] / [graph.nodes]: nodes in insertion order. *)
Definition nodes (g : Graph) : list EuclideanNode := map fst g.

Definition has_node (g : Graph) (n : EuclideanNode) : bool :=
  match dict_get node_eq_dec g n with Some _ => true | None => false end.

Definition add_node (g : Graph) (n : EuclideanNode) : Graph :=
  if has_node g n then g else g ++ [(n, [])].

Definition set_adj (g : Graph) (u v : EuclideanNode) (a : attr) : Graph :=
  match dict_get node_eq_dec g u with
  | Some nb => setitem node_eq_dec g u (setitem node_eq_dec nb v a)
  | None => g
  end.

(** [graph.add_edge(u, v, weight=w)] *)
Definition add_edge (g : Graph) (u v : EuclideanNode) (w : R) : Graph :=
  let g := add_node (add_node g u) v in
  set_adj (set_adj g u v (Some w)) v u (Some w).

(** [graph[u][v].get('weight', 1)] *)
Definition edge_weight (g : Graph) (u v : EuclideanNode) : result R :=
  nb <- getitem node_eq_dec g u ;;
  a <- getitem node_eq_dec nb v ;;
  Ok (match a with Some w => w | None => 1 end).

(** ** model/bases.py: NodeList filters *)



(** ** model/functions.py: nearest neighbours and projection *)





Section Repair.

(** shapely's [line.interpolate(line.project(point))] for the segment
    from the first point to the second: the point of the segment nearest
    to the third argument. *)
Variable nearest_on_segment : R * R -> R * R -> R * R -> R * R.




End Repair.

(** ** tsp/solve_tsp.py *)

(** [_path_len]: the sum of [graph[u][v].get('weight', 1)] over
    [zip(path[:-1], path[1:])]. *)
Definition _path_len (g : Graph) (path : list EuclideanNode) : result R :=
  ws <- mapM (fun '(u, v) => edge_weight g u v)
             (combine (removelast path) (tl path)) ;;
  Ok (sum_R ws).

Definition edge_key : Type := (EuclideanNode * EuclideanNode)%type.

Definition edge_key_eq_dec (a b : edge_key) : {a = b} + {a <> b}.
Proof.
  destruct a as [a1 a2], b as [b1 b2].
  destruct (node_eq_dec a1 b1) as [H1 | H1]; [ | right; congruence ].
  destruct (node_eq_dec a2 b2) as [H2 | H2]; [ | right; congruence ].
  left; congruence.
Defined.

(** [ReducedGraph]: the inherited graph, [start], and [edge_dict], the map
    from each reduced edge to its full path. *)
Record ReducedGraph : Type := mkReduced {
  rgraph : Graph;
  start : EuclideanNode;
  edge_dict : list (edge_key * list EuclideanNode)
}.

(** [ReducedGraph(start)] *)
Definition ReducedGraph_init (s : EuclideanNode) : ReducedGraph :=
  mkReduced [] s [].

Definition add_reduced_edge (r : ReducedGraph) (u v : EuclideanNode)
           (path : list EuclideanNode) (weight : R) : ReducedGraph :=
  let g := add_edge (rgraph r) u v weight in
  let d := setitem edge_key_eq_dec (edge_dict r) (u, v) path in
  let d := setitem edge_key_eq_dec d (v, u) (rev path) in
  mkReduced g (start r) d.

(** [expand_path]: [reduced_path[:-2]] and [reduced_path[1:-1]] are zipped;
    each stored path loses its last node ([[:-1]]); the path of the last
    reduced edge, found with [reduced_path[-2]] and [reduced_path[-1]], is
    appended whole. *)
Definition expand_path (r : ReducedGraph) (reduced_path : list EuclideanNode)
  : result (list EuclideanNode) :=
  segments <- mapM (fun '(u, v) =>
                      p <- getitem edge_key_eq_dec (edge_dict r) (u, v) ;;
                      Ok (removelast p))
                   (combine (removelast (removelast reduced_path))
                            (removelast (tl reduced_path))) ;;
  let full_path := List.concat segments in
  u <- index_from_end reduced_path 2 ;;
  v <- index_from_end reduced_path 1 ;;
  last_path <- getitem edge_key_eq_dec (edge_dict r) (u, v) ;;
  Ok (full_path ++ last_path).

(** [ReducedGraph.neighbors]: the keys of [self[n]]. *)
Definition neighbors (r : ReducedGraph) (n : EuclideanNode)
  : result (list EuclideanNode) :=
  nb <- getitem node_eq_dec (rgraph r) n ;;
  Ok (map fst nb).

Definition mem (n : EuclideanNode) (s : list EuclideanNode) : bool :=
  existsb (node_eqb n) s.

(** [_brute_force].  The pair [(shortest_path, shortest_len)] is [None]
    while it is [(None, float('inf'))], the only state in which the length
    is not a number; every real length is below infinity. *)
Definition shorter (length : R) (best : option (list EuclideanNode * R)) : bool :=
  match best with
  | None => true
  | Some (_, shortest_len) => if Rlt_dec length shortest_len then true else false
  end.

Fixpoint brute_loop (graph : ReducedGraph) (perms : list (list EuclideanNode))
         (best : option (list EuclideanNode * R))
  : result (option (list EuclideanNode * R)) :=
  match perms with
  | [] => Ok best
  | p :: perms' =>
      let path := start graph :: p in
      length <- _path_len (rgraph graph) path ;;
      if shorter length best then brute_loop graph perms' (Some (path, length))
      else brute_loop graph perms' best
  end.

(** The nodes to permute are those that are not the object [graph.start]
    ([is not]).  A graph holds one object for each key, and
    [_reduce_graph] takes [start] and the keys from the same [node_dict],
    so a key equal to [start] is the object [start]: the test of identity
    is the test of equality here. *)
Definition _brute_force (graph : ReducedGraph)
  : result (option (list EuclideanNode * R)) :=
  let nodes :=
    filter (fun node => negb (node_eqb node (start graph)))
           (nodes (rgraph graph)) in
  brute_loop graph (permutations nodes) None.

(** The algorithm names, [str.lower] and the error message of [tsp_solver]. *)
Definition lower_ascii (c : ascii) : ascii :=
  let n := nat_of_ascii c in
  if ((65 <=? n) && (n <=? 90))%nat then ascii_of_nat (n + 32) else c.

Fixpoint lower (s : string) : string :=
  match s with
  | EmptyString => EmptyString
  | String c s' => String (lower_ascii c) (lower s')
  end.

Definition _implemented : list string := ["greedy"%string; "brute force"%string].

Definition _bullet_points : string :=
  String.concat ""
    (map (fun algo => (String "010" (String "009" "- ") ++ algo)%string)
         _implemented).

Definition not_implemented_msg (algorithm : string) : string :=
  (String (ascii_of_nat 34) algorithm
   ++ String (ascii_of_nat 34)
        " is not recognized as an implemented algorithm. Implemented algorithms: "
   ++ _bullet_points)%string.

(** [EuclideanGraph]: the graph and [node_dict], from names to nodes. *)
Record EuclideanGraph : Type := mkEuclideanGraph {
  graph : Graph;
  node_dict : list (string * EuclideanNode)
}.

Section Solver.

(** [s.difference(visited)] as it is iterated: the items of [s] that are
    not in [visited], in the order the resulting set yields them. *)
Variable set_difference :
  list EuclideanNode -> list EuclideanNode -> list EuclideanNode.

(** [nx.astar_path(graph, source, target, heuristic=euclidean_dist_nodes)] *)
Variable astar_path :
  Graph -> EuclideanNode -> EuclideanNode -> result (list EuclideanNode).

(** The [while] loop of [_greedy]; [None] when [fuel] rounds did not
    reach the end of the loop. *)
Fixpoint greedy_loop (fuel : nat) (graph : ReducedGraph)
         (cur : EuclideanNode) (greedy_path visited : list EuclideanNode)
  : option (result (list EuclideanNode)) :=
  match neighbors graph cur with
  | Raise e => Some (Raise e)
  | Ok nb =>
      match set_difference nb visited with
      | [] => Some (Ok greedy_path)
      | unvisited =>
          match fuel with
          | O => None
          | S fuel' =>
              match py_min (euclidean_dist_nodes cur) unvisited with
              | Raise e => Some (Raise e)
              | Ok nearest =>
                  greedy_loop fuel' graph nearest
                              (greedy_path ++ [nearest]) (nearest :: visited)
              end
          end
      end
  end.

(** [_greedy]; every round visits a new node of the graph, so the loop
    is given one round per node. *)
Definition _greedy (graph : ReducedGraph)
  : option (result (list EuclideanNode * R)) :=
  match greedy_loop (len (nodes (rgraph graph))) graph (start graph)
                    [start graph] [start graph] with
  | None => None
  | Some r =>
      Some (greedy_path <- r ;;
            length <- _path_len (rgraph graph) greedy_path ;;
            Ok (greedy_path, length))
  end.

Definition reduce_step (g : EuclideanGraph) (reduced : ReducedGraph)
           (uv : string * string) : result ReducedGraph :=
  let '(u, v) := uv in
  source <- getitem string_dec (node_dict g) u ;;
  target <- getitem string_dec (node_dict g) v ;;
  path <- astar_path (graph g) source target ;;
  path_dist <- _path_len (graph g) path ;;
  Ok (add_reduced_edge reduced source target path path_dist).

Definition _reduce_graph (g : EuclideanGraph) (nodes : list string)
           (start : string) : result ReducedGraph :=
  s <- getitem string_dec (node_dict g) start ;;
  foldM (reduce_step g) (combinations2 nodes) (ReducedGraph_init s).

Definition tsp_solver (g : EuclideanGraph) (nodes : list string)
           (start : string) (algorithm : string)
  : option (result (list EuclideanNode * R)) :=
  match _reduce_graph g nodes start with
  | Raise e => Some (Raise e)
  | Ok reduced =>
      if String.eqb (lower algorithm) "greedy" then
        match _greedy reduced with
        | None => None
        | Some r =>
            Some ('(shortest_path, length) <- r ;;
                  full_path <- expand_path reduced shortest_path ;;
                  Ok (full_path, length))
        end
      else if String.eqb (lower algorithm) "brute force" then
        Some (best <- _brute_force reduced ;;
              match best with
              | None => Raise TypeError
              | Some (shortest_path, length) =>
                  full_path <- expand_path reduced shortest_path ;;
                  Ok (full_path, length)
              end)
      else Some (Raise (NotImplementedError (not_implemented_msg algorithm)))
  end.

End Solver.

(** ** Facts about [sum_R] and the distance *)

Lemma fold_left_Rplus_acc (l : list R) (a : R) :
  fold_left Rplus l a = a + fold_left Rplus l 0.
Proof.
  revert a; induction l as [ | x l IH]; intros a; simpl.
  - lra.
  - rewrite (IH (a + x)), (IH (0 + x)). lra.
Qed.

Lemma sum_R_nil : sum_R [] = 0.
Proof. reflexivity. Qed.

Lemma sum_R_cons (x : R) (l : list R) : sum_R (x :: l) = x + sum_R l.
Proof.
  unfold sum_R; simpl. rewrite fold_left_Rplus_acc. lra.
Qed.

Lemma sum_R_app (l1 l2 : list R) : sum_R (l1 ++ l2) = sum_R l1 + sum_R l2.
Proof.
  induction l1 as [ | x l1 IH]; simpl.
  - rewrite sum_R_nil. lra.
  - rewrite !sum_R_cons, IH. lra.
Qed.

Lemma sum_R_nonneg (l : list R) :
  Forall (fun x => 0 <= x) l -> 0 <= sum_R l.
Proof.
  induction 1 as [ | x l Hx _ IH].
  - rewrite sum_R_nil. lra.
  - rewrite sum_R_cons. lra.
Qed.

(** The sum of squared coordinate differences. *)
Definition sq_diffs (p q : point) : list R :=
  map (fun '(d1, d2) => (d1 - d2) ^ 2) (combine p q).

Lemma sq_diffs_cons (x y : R) (p q : point) :
  sq_diffs (x :: p) (y :: q) = (x - y) ^ 2 :: sq_diffs p q.
Proof. reflexivity. Qed.

Lemma sq_diffs_nonneg (p q : point) : 0 <= sum_R (sq_diffs p q).
Proof.
  apply sum_R_nonneg. unfold sq_diffs.
  apply Forall_forall. intros x Hx.
  apply in_map_iff in Hx. destruct Hx as [[d1 d2] [<- _]].
  apply pow2_ge_0.
Qed.

Lemma sq_diffs_sym (p q : point) : sq_diffs p q = sq_diffs q p.
Proof.
  revert q; induction p as [ | x p IH]; intros [ | y q]; try reflexivity.
  rewrite !sq_diffs_cons, IH. f_equal. ring.
Qed.

Lemma sq_diffs_zero (p q : point) :
  len p = len q -> sum_R (sq_diffs p q) = 0 -> p = q.
Proof.
  revert q; induction p as [ | x p IH]; intros [ | y q] Hlen Hs;
    try discriminate; try reflexivity.
  rewrite sq_diffs_cons, sum_R_cons in Hs.
  pose proof (sq_diffs_nonneg p q) as Hpq.
  pose proof (pow2_ge_0 (x - y)) as Hxy.
  assert (Hx : (x - y) ^ 2 = 0) by lra.
  assert (Hr : sum_R (sq_diffs p q) = 0) by lra.
  f_equal.
  - assert (x - y = 0) by (apply Rsqr_0_uniq; unfold Rsqr; lra). lra.
  - apply IH; [ simpl in Hlen; lia | exact Hr ].
Qed.

Lemma sq_diffs_refl (p : point) : sum_R (sq_diffs p p) = 0.
Proof.
  induction p as [ | x p IH].
  - reflexivity.
  - rewrite sq_diffs_cons, sum_R_cons, IH. ring.
Qed.

Lemma euclidean_dist_ok (p q : point) :
  len p = len q ->
  euclidean_dist p q = Ok (sqrt (sum_R (sq_diffs p q))).
Proof.
  intros Hlen. unfold euclidean_dist.
  rewrite Hlen, Nat.eqb_refl. reflexivity.
Qed.

Lemma euclidean_dist_raise (p q : point) :
  len p <> len q ->
  euclidean_dist p q = Raise (ValueError dim_mismatch_msg).
Proof.
  intros Hlen. unfold euclidean_dist.
  apply Nat.eqb_neq in Hlen. rewrite Hlen. reflexivity.
Qed.

(** Cauchy-Schwarz over a list of pairs, the step behind the triangle
    inequality. *)
Definition dot (l : list (R * R)) : R := sum_R (map (fun '(a, b) => a * b) l).
Definition norm2_l (l : list (R * R)) : R := sum_R (map (fun '(a, _) => a ^ 2) l).
Definition norm2_r (l : list (R * R)) : R := sum_R (map (fun '(_, b) => b ^ 2) l).

Lemma norm2_l_nonneg (l : list (R * R)) : 0 <= norm2_l l.
Proof.
  apply sum_R_nonneg, Forall_forall. intros x Hx.
  apply in_map_iff in Hx. destruct Hx as [[a b] [<- _]]. apply pow2_ge_0.
Qed.

Lemma norm2_r_nonneg (l : list (R * R)) : 0 <= norm2_r l.
Proof.
  apply sum_R_nonneg, Forall_forall. intros x Hx.
  apply in_map_iff in Hx. destruct Hx as [[a b] [<- _]]. apply pow2_ge_0.
Qed.

Lemma le_of_sq_le (P Q : R) : 0 <= P -> Q * Q <= P * P -> Q <= P.
Proof.
  intros HP HQ. destruct (Rle_dec Q P) as [H | H]; [ exact H | ].
  exfalso. assert (P < Q) by lra. nra.
Qed.

Lemma cauchy_schwarz_step (x y S A B : R) :
  0 <= A -> 0 <= B -> S * S <= A * B ->
  (x * y + S) * (x * y + S) <= (x * x + A) * (y * y + B).
Proof.
  intros HA HB HS.
  assert (Hmix : 2 * (x * y) * S <= x * x * B + y * y * A).
  { apply le_of_sq_le.
    - pose proof (Rle_0_sqr x) as Hx. pose proof (Rle_0_sqr y) as Hy.
      unfold Rsqr in Hx, Hy.
      pose proof (Rmult_le_pos _ _ Hx HB). pose proof (Rmult_le_pos _ _ Hy HA).
      lra.
    - pose proof (Rle_0_sqr (x * x * B - y * y * A)) as H1.
      pose proof (Rle_0_sqr (x * y)) as Hxy. unfold Rsqr in H1, Hxy.
      assert (H2 : 0 <= (x * y) * (x * y) * (A * B - S * S)).
      { apply Rmult_le_pos; [ exact Hxy | lra ]. }
      lra. }
  lra.
Qed.

Lemma cauchy_schwarz (l : list (R * R)) :
  dot l * dot l <= norm2_l l * norm2_r l.
Proof.
  induction l as [ | [x y] l IH].
  - unfold dot, norm2_l, norm2_r; simpl. rewrite sum_R_nil. lra.
  - pose proof (norm2_l_nonneg l) as HA. pose proof (norm2_r_nonneg l) as HB.
    unfold dot, norm2_l, norm2_r in *; simpl map.
    rewrite !sum_R_cons.
    simpl pow. rewrite !Rmult_1_r.
    apply cauchy_schwarz_step; assumption.
Qed.

Lemma sum_sq_expand (l : list (R * R)) :
  sum_R (map (fun '(a, b) => (a + b) ^ 2) l)
  = norm2_l l + 2 * dot l + norm2_r l.
Proof.
  unfold norm2_l, norm2_r, dot.
  induction l as [ | [x y] l IH].
  - simpl. rewrite !sum_R_nil. lra.
  - cbn [map]. rewrite !sum_R_cons, IH. ring.
Qed.

Lemma minkowski (l : list (R * R)) :
  sqrt (sum_R (map (fun '(a, b) => (a + b) ^ 2) l))
  <= sqrt (norm2_l l) + sqrt (norm2_r l).
Proof.
  pose proof (norm2_l_nonneg l) as HA. pose proof (norm2_r_nonneg l) as HB.
  pose proof (cauchy_schwarz l) as HCS.
  rewrite sum_sq_expand.
  set (A := norm2_l l) in *. set (B := norm2_r l) in *. set (C := dot l) in *.
  pose proof (sqrt_pos A) as HsA. pose proof (sqrt_pos B) as HsB.
  pose proof (sqrt_sqrt A HA) as HAA. pose proof (sqrt_sqrt B HB) as HBB.
  assert (HC : C <= sqrt A * sqrt B).
  { apply le_of_sq_le; [ nra | ].
    replace (sqrt A * sqrt B * (sqrt A * sqrt B))
      with ((sqrt A * sqrt A) * (sqrt B * sqrt B)) by ring.
    rewrite HAA, HBB. exact HCS. }
  destruct (Rle_dec 0 (A + 2 * C + B)) as [Hpos | Hneg].
  - rewrite <- (sqrt_square (sqrt A + sqrt B)) by lra.
    apply sqrt_le_1; [ exact Hpos | nra | nra ].
  - assert (Hlt : A + 2 * C + B < 0) by lra.
    rewrite (sqrt_neg_0 _ (Rlt_le _ _ Hlt)). lra.
Qed.

(** The coordinate differences [p - q] and [q - r], paired by position. *)
Fixpoint tri_pairs (p q r : point) : list (R * R) :=
  match p, q, r with
  | x :: p', y :: q', z :: r' => (x - y, y - z) :: tri_pairs p' q' r'
  | _, _, _ => []
  end.

Lemma tri_pairs_sums (p q r : point) :
  len p = len q -> len q = len r ->
  norm2_l (tri_pairs p q r) = sum_R (sq_diffs p q)
  /\ norm2_r (tri_pairs p q r) = sum_R (sq_diffs q r)
  /\ sum_R (map (fun '(a, b) => (a + b) ^ 2) (tri_pairs p q r))
     = sum_R (sq_diffs p r).
Proof.
  revert q r; induction p as [ | x p IH]; intros [ | y q] [ | z r] Hpq Hqr;
    try discriminate.
  - repeat split; reflexivity.
  - simpl in Hpq, Hqr.
    destruct (IH q r) as [H1 [H2 H3]]; [ lia | lia | ].
    unfold norm2_l, norm2_r in *. cbn [tri_pairs map].
    rewrite !sq_diffs_cons, !sum_R_cons, H1, H2, H3.
    repeat split; ring.
Qed.

(** In exact arithmetic the distance is a metric: for points of equal
    dimension it is defined, symmetric, non-negative and zero exactly
    between equal points, and it satisfies the triangle inequality.  This
    is a fact of the real-number reading only; the binary64 distance keeps
    neither the triangle inequality nor the separation of points. *)
Lemma euclidean_dist_exact_metric :
  (forall p q : point, len p = len q ->
     exists d, euclidean_dist p q = Ok d /\ euclidean_dist q p = Ok d
               /\ 0 <= d /\ (d = 0 <-> p = q))
  /\ (forall p q r : point, len p = len q -> len q = len r ->
        exists dpq dqr dpr,
          euclidean_dist p q = Ok dpq /\ euclidean_dist q r = Ok dqr
          /\ euclidean_dist p r = Ok dpr /\ dpr <= dpq + dqr)
  /\ (forall p q : point, len p <> len q ->
        euclidean_dist p q = Raise (ValueError dim_mismatch_msg)).
Proof.
  split; [ | split ].
  - intros p q Hlen.
    exists (sqrt (sum_R (sq_diffs p q))).
    split; [ apply euclidean_dist_ok; exact Hlen | ].
    split; [ rewrite (sq_diffs_sym p q); apply euclidean_dist_ok; auto | ].
    split; [ apply sqrt_pos | ].
    split.
    + intros H0. apply sq_diffs_zero; [ exact Hlen | ].
      apply sqrt_eq_0; [ apply sq_diffs_nonneg | exact H0 ].
    + intros ->. rewrite sq_diffs_refl. apply sqrt_0.
  - intros p q r Hpq Hqr.
    exists (sqrt (sum_R (sq_diffs p q))), (sqrt (sum_R (sq_diffs q r))),
           (sqrt (sum_R (sq_diffs p r))).
    repeat split; try (apply euclidean_dist_ok; congruence).
    destruct (tri_pairs_sums p q r Hpq Hqr) as [H1 [H2 H3]].
    rewrite <- H1, <- H2, <- H3. apply minkowski.
  - intros p q Hlen. apply euclidean_dist_raise; exact Hlen.
Qed.

(** ** The distance on binary64 floats *)

Section SpecFloatFacts.

Variables prec emax : Z.

(** Two floating-point values that differ at most in their sign. *)
Definition same_abs (a b : spec_float) : Prop :=
  match a, b with
  | S754_zero _, S754_zero _ => True
  | S754_infinity _, S754_infinity _ => True
  | S754_nan, S754_nan => True
  | S754_finite _ m e, S754_finite _ m' e' => m = m' /\ e = e'
  | _, _ => False
  end.

Definition SFfinite (a : spec_float) : bool :=
  match a with
  | S754_zero _ | S754_finite _ _ _ => true
  | _ => false
  end.

Lemma binary_round_aux_same_abs (sx sy : bool) (mx ex : Z) (lx : location) :
  same_abs (binary_round_aux prec emax sx mx ex lx)
           (binary_round_aux prec emax sy mx ex lx).
Proof.
  unfold binary_round_aux.
  destruct (shr_fexp prec emax mx ex lx) as [mrs' e'].
  destruct (shr_fexp prec emax _ e' loc_Exact) as [mrs'' e''].
  destruct (shr_m mrs''); cbn; auto.
  destruct (Z.leb e'' (Z.sub emax prec)); cbn; auto.
Qed.

Lemma binary_round_same_abs (sx sy : bool) (m : positive) (e : Z) :
  same_abs (binary_round prec emax sx m e) (binary_round prec emax sy m e).
Proof.
  unfold binary_round.
  destruct (shl_align m e _) as [mz ez].
  apply binary_round_aux_same_abs.
Qed.

Lemma binary_normalize_opp (m e : Z) :
  same_abs (binary_normalize prec emax m e false)
           (binary_normalize prec emax (- m) e false).
Proof.
  destruct m; cbn; [ exact I | | ]; apply binary_round_same_abs.
Qed.

Lemma SFsub_same_abs (x y : spec_float) :
  same_abs (SFsub prec emax x y) (SFsub prec emax y x).
Proof.
  destruct x as [sx | sx | | sx mx ex], y as [sy | sy | | sy my ey];
    cbn [SFsub same_abs]; try exact I; try (destruct sx, sy; exact I);
    try (split; reflexivity).
  rewrite (Z.min_comm ey ex).
  set (a := cond_Zopp sx _). set (b := cond_Zopp sy _).
  replace (b - a)%Z with (- (a - b))%Z by lia.
  apply binary_normalize_opp.
Qed.

Lemma SFmul_same_abs (a b : spec_float) :
  same_abs a b -> SFmul prec emax a a = SFmul prec emax b b.
Proof.
  destruct a as [s | s | | s m e], b as [t | t | | t m' e']; cbn;
    try tauto; try (intros _; destruct s, t; reflexivity).
  intros [-> ->]. destruct s, t; reflexivity.
Qed.

Lemma SFfinite_same_abs (a b : spec_float) :
  same_abs a b -> SFfinite a = SFfinite b.
Proof.
  destruct a, b; cbn; tauto.
Qed.

Lemma SFsub_self (x : spec_float) :
  SFfinite x = true -> SFsub prec emax x x = S754_zero false.
Proof.
  destruct x as [s | s | | s m e]; cbn [SFfinite SFsub]; try discriminate.
  - intros _. destruct s; reflexivity.
  - intros _. rewrite Z.min_id, Z.sub_diag. reflexivity.
Qed.

Lemma SFsqrt_not_negative (x : spec_float) :
  SFltb (SFsqrt prec emax x) (S754_zero false) = false.
Proof.
  destruct x as [s | s | | s m e]; cbn [SFsqrt]; try reflexivity.
  - destruct s; reflexivity.
  - destruct s; [ reflexivity | ].
    destruct (SFsqrt_core_binary prec emax (Zpos m) e) as [[mz ez] lz].
    unfold binary_round_aux.
    destruct (shr_fexp prec emax mz ez lz) as [mrs' e'].
    destruct (shr_fexp prec emax _ e' loc_Exact) as [mrs'' e''].
    destruct (shr_m mrs''); try reflexivity.
    destruct (Z.leb e'' (Z.sub emax prec)); reflexivity.
Qed.


(** Not a NaN and not negative: [+0], a positive number or [+infinity]. *)
Definition SFnonneg (a : spec_float) : bool :=
  match a with
  | S754_zero false | S754_infinity false | S754_finite false _ _ => true
  | _ => false
  end.

Definition SFnot_nan (a : spec_float) : bool :=
  match a with S754_nan => false | _ => true end.

Lemma shr_1_nonneg (mrs : shr_record) :
  (0 <= shr_m mrs)%Z -> (0 <= shr_m (shr_1 mrs))%Z.
Proof.
  destruct mrs as [m r s]. cbn [shr_m shr_1].
  destruct m as [ | [p | p | ] | p]; cbn [shr_m]; lia.
Qed.

Lemma iter_shr_1_nonneg (p : positive) :
  forall mrs,
    (0 <= shr_m mrs)%Z -> (0 <= shr_m (SpecFloat.iter_pos shr_1 p mrs))%Z.
Proof.
  induction p as [p IH | p IH | ]; intros mrs H; cbn [iter_pos].
  - apply IH, IH, shr_1_nonneg, H.
  - apply IH, IH, H.
  - apply shr_1_nonneg, H.
Qed.

Lemma shr_fexp_nonneg (m e : Z) (l : location) :
  (0 <= m)%Z -> (0 <= shr_m (fst (shr_fexp prec emax m e l)))%Z.
Proof.
  intros H. unfold shr_fexp, shr.
  assert (H0 : (0 <= shr_m (shr_record_of_loc m l))%Z)
    by (destruct l as [ | [ | | ]]; exact H).
  destruct (_ - e)%Z; cbn [fst]; [ exact H0 | | exact H0 ].
  apply iter_shr_1_nonneg, H0.
Qed.

Lemma round_nearest_even_nonneg (m : Z) (l : location) :
  (0 <= m)%Z -> (0 <= round_nearest_even m l)%Z.
Proof.
  intros H. destruct l as [ | [ | | ]]; cbn [round_nearest_even];
    [ exact H | | exact H | lia ].
  destruct (Z.even m); lia.
Qed.

Lemma binary_round_aux_nonneg (m e : Z) (l : location) :
  (0 <= m)%Z -> SFnonneg (binary_round_aux prec emax false m e l) = true.
Proof.
  intros H. unfold binary_round_aux.
  pose proof (shr_fexp_nonneg e l H) as H1.
  destruct (shr_fexp prec emax m e l) as [mrs' e']. cbn [fst] in H1.
  pose proof (shr_fexp_nonneg e' loc_Exact
                (round_nearest_even_nonneg (loc_of_shr_record mrs') H1)) as H2.
  destruct (shr_fexp prec emax _ e' loc_Exact) as [mrs'' e''].
  cbn [fst] in H2.
  destruct (shr_m mrs''); [ reflexivity | | lia ].
  destruct (Z.leb e'' (Z.sub emax prec)); reflexivity.
Qed.

Lemma binary_round_nonneg (m : positive) (e : Z) :
  SFnonneg (binary_round prec emax false m e) = true.
Proof.
  unfold binary_round. destruct (shl_align m e _) as [mz ez].
  apply binary_round_aux_nonneg. lia.
Qed.

Lemma SFnonneg_not_nan (a : spec_float) :
  SFnonneg a = true -> SFnot_nan a = true.
Proof. destruct a as [[] | [] | | [] m e]; cbn; congruence. Qed.

Lemma same_abs_not_nan (a b : spec_float) :
  same_abs a b -> SFnot_nan a = SFnot_nan b.
Proof. destruct a, b; cbn; tauto. Qed.

Lemma binary_round_not_nan (s : bool) (m : positive) (e : Z) :
  SFnot_nan (binary_round prec emax s m e) = true.
Proof.
  rewrite (@same_abs_not_nan _ _ (binary_round_same_abs s false m e)).
  apply SFnonneg_not_nan, binary_round_nonneg.
Qed.

Lemma SFsub_not_nan (x y : spec_float) :
  SFfinite x = true -> SFfinite y = true ->
  SFnot_nan (SFsub prec emax x y) = true.
Proof.
  destruct x as [sx | sx | | sx mx ex], y as [sy | sy | | sy my ey];
    cbn [SFfinite SFsub]; try discriminate; intros _ _;
    try reflexivity; try (destruct sx, sy; reflexivity).
  cbv zeta.
  match goal with
  | |- context [binary_normalize _ _ ?m _ _] => generalize m
  end.
  intros [ | m | m]; cbn [binary_normalize];
    [ reflexivity | | ]; apply binary_round_not_nan.
Qed.

Lemma SFmul_self_nonneg (x : spec_float) :
  SFnot_nan x = true -> SFnonneg (SFmul prec emax x x) = true.
Proof.
  destruct x as [s | s | | s m e]; cbn [SFnot_nan SFmul]; try discriminate;
    intros _; try (destruct s; reflexivity).
  replace (xorb s s) with false by (destruct s; reflexivity).
  apply binary_round_aux_nonneg. lia.
Qed.

Lemma SFadd_nonneg (x y : spec_float) :
  SFnonneg x = true -> SFnonneg y = true ->
  SFnonneg (SFadd prec emax x y) = true.
Proof.
  destruct x as [[] | [] | | [] mx ex], y as [[] | [] | | [] my ey];
    cbn [SFnonneg SFadd]; try discriminate; intros _ _; try reflexivity.
  cbn [cond_Zopp Z.add binary_normalize]. apply binary_round_nonneg.
Qed.

Lemma SFsqrt_nonneg (x : spec_float) :
  SFnonneg x = true -> SFnonneg (SFsqrt prec emax x) = true.
Proof.
  destruct x as [[] | [] | | [] m e]; cbn [SFnonneg SFsqrt]; try discriminate;
    intros _; try reflexivity.
  destruct (SFsqrt_core_binary prec emax (Zpos m) e) as [[mz ez] lz] eqn:E.
  apply binary_round_aux_nonneg.
  unfold SFsqrt_core_binary in E.
  set (m' := match (e - _)%Z with Z0 => Zpos m | Zpos _ => _ | Zneg _ => _ end)
    in E.
  pose proof (Z.sqrtrem_sqrt m') as Hq. pose proof (Z.sqrt_nonneg m') as Hs.
  destruct (Z.sqrtrem m') as [q r]. cbn [fst] in Hq.
  injection E as <- _ _. lia.
Qed.

Lemma SFleb_zero_nonneg (x : spec_float) :
  SFnonneg x = true -> SFleb (S754_zero false) x = true.
Proof.
  destruct x as [[] | [] | | [] m e]; cbn [SFnonneg]; try discriminate;
    reflexivity.
Qed.

End SpecFloatFacts.

Lemma finite_SFfinite (x : float) :
  Binary64.finite x = SFfinite (Prim2SF x).
Proof. reflexivity. Qed.

Lemma sub_same_abs (x y : float) :
  same_abs (Prim2SF (PrimFloat.sub x y)) (Prim2SF (PrimFloat.sub y x)).
Proof.
  rewrite !sub_spec. apply SFsub_same_abs.
Qed.

Lemma square_same_abs (a b : float) :
  same_abs (Prim2SF a) (Prim2SF b) -> Binary64.square a = Binary64.square b.
Proof.
  intros H.
  assert (Hmul : PrimFloat.mul a a = PrimFloat.mul b b).
  { apply Prim2SF_inj. rewrite !mul_spec. apply SFmul_same_abs. exact H. }
  unfold Binary64.square. cbv zeta.
  rewrite Hmul, !finite_SFfinite, (@SFfinite_same_abs _ _ H). reflexivity.
Qed.

Lemma square_sub_sym (x y : float) :
  Binary64.square (PrimFloat.sub x y) = Binary64.square (PrimFloat.sub y x).
Proof. apply square_same_abs, sub_same_abs. Qed.

Lemma squares_sym (p q : list float) :
  mapM (fun '(d1, d2) => Binary64.square (PrimFloat.sub d1 d2)) (combine p q)
  = mapM (fun '(d1, d2) => Binary64.square (PrimFloat.sub d1 d2)) (combine q p).
Proof.
  revert q. induction p as [ | x p IH ]; intros [ | y q ]; try reflexivity.
  cbn [combine mapM]. rewrite (square_sub_sym x y), (IH q). reflexivity.
Qed.

Lemma binary64_dist_sym (p q : list float) :
  Binary64.euclidean_dist p q = Binary64.euclidean_dist q p.
Proof.
  unfold Binary64.euclidean_dist.
  rewrite (Nat.eqb_sym (len q) (len p)), (squares_sym p q). reflexivity.
Qed.

Lemma sqrt_not_negative (x : float) :
  PrimFloat.ltb (PrimFloat.sqrt x) 0%float = false.
Proof.
  rewrite ltb_spec, sqrt_spec. apply SFsqrt_not_negative.
Qed.

Lemma sub_self (x : float) :
  Binary64.finite x = true -> PrimFloat.sub x x = 0%float.
Proof.
  intros H. apply Prim2SF_inj. rewrite sub_spec.
  unfold SF64sub. rewrite SFsub_self; [ reflexivity | exact H ].
Qed.

Lemma squares_self (p : list float) :
  forallb Binary64.finite p = true ->
  mapM (fun '(d1, d2) => Binary64.square (PrimFloat.sub d1 d2)) (combine p p)
  = Ok (repeat 0%float (len p)).
Proof.
  induction p as [ | x p IH ]; [ reflexivity | ].
  cbn [forallb]. intros H. apply andb_prop in H. destruct H as [Hx Hp].
  cbn [combine mapM]. rewrite (sub_self x Hx), (IH Hp). reflexivity.
Qed.

Lemma sum_zeros (n : nat) : Binary64.sum (repeat 0%float n) = 0%float.
Proof.
  unfold Binary64.sum. induction n as [ | n IH ]; [ reflexivity | ].
  cbn [repeat fold_left].
  replace (PrimFloat.add 0 0) with 0%float by reflexivity. exact IH.
Qed.

Lemma squares_error (p q : list float) (e : exn) :
  mapM (fun '(d1, d2) => Binary64.square (PrimFloat.sub d1 d2)) (combine p q)
  = Raise e -> e = OverflowError.
Proof.
  revert q. induction p as [ | x p IH ]; intros [ | y q ]; cbn [combine mapM];
    try discriminate.
  unfold Binary64.square at 1. cbv zeta.
  destruct (_ && _); cbn [bind]; [ congruence | ].
  destruct (mapM _ (combine p q)) as [ ys | e' ] eqn:E; cbn [bind];
    [ discriminate | ].
  intros H. injection H as <-. exact (IH q E).
Qed.


Lemma sub_not_nan (x y : float) :
  Binary64.finite x = true -> Binary64.finite y = true ->
  SFnot_nan (Prim2SF (PrimFloat.sub x y)) = true.
Proof.
  intros Hx Hy. rewrite sub_spec. apply SFsub_not_nan; assumption.
Qed.

Lemma square_nonneg (x y : float) :
  SFnot_nan (Prim2SF x) = true ->
  Binary64.square x = Ok y -> SFnonneg (Prim2SF y) = true.
Proof.
  intros Hx. unfold Binary64.square. cbv zeta.
  destruct (_ && _); [ discriminate | ].
  intros [= <-]. rewrite mul_spec. apply SFmul_self_nonneg. exact Hx.
Qed.

Lemma squares_nonneg (p q : list float) :
  forallb Binary64.finite p = true -> forallb Binary64.finite q = true ->
  forall ys,
    mapM (fun '(d1, d2) => Binary64.square (PrimFloat.sub d1 d2))
         (combine p q) = Ok ys ->
    Forall (fun y => SFnonneg (Prim2SF y) = true) ys.
Proof.
  revert q. induction p as [ | x p IH]; intros [ | y q] Hp Hq ys;
    cbn [combine mapM]; try (intros [= <-]; constructor).
  cbn [forallb] in Hp, Hq.
  apply andb_prop in Hp. destruct Hp as [Hx Hp].
  apply andb_prop in Hq. destruct Hq as [Hy Hq].
  destruct (Binary64.square (PrimFloat.sub x y)) as [z | e] eqn:Ez;
    cbn [bind]; [ | discriminate ].
  destruct (mapM _ (combine p q)) as [zs | e] eqn:Ezs; cbn [bind];
    [ | discriminate ].
  intros [= <-]. constructor.
  - apply (@square_nonneg _ z (sub_not_nan x y Hx Hy) Ez).
  - apply (IH q Hp Hq zs Ezs).
Qed.

Lemma fold_add_nonneg (ys : list float) :
  Forall (fun y => SFnonneg (Prim2SF y) = true) ys ->
  forall acc,
    SFnonneg (Prim2SF acc) = true ->
    SFnonneg (Prim2SF (fold_left PrimFloat.add ys acc)) = true.
Proof.
  induction 1 as [ | y ys Hy Hys IH]; intros acc Hacc; cbn [fold_left];
    [ exact Hacc | ].
  apply IH. rewrite add_spec. apply SFadd_nonneg; assumption.
Qed.

Lemma sqrt_nonneg (x : float) :
  SFnonneg (Prim2SF x) = true ->
  PrimFloat.leb 0%float (PrimFloat.sqrt x) = true.
Proof.
  intros H. rewrite leb_spec, sqrt_spec.
  apply SFleb_zero_nonneg, SFsqrt_nonneg, H.
Qed.

Lemma binary64_dist_nonneg (p q : list float) (d : float) :
  forallb Binary64.finite p = true -> forallb Binary64.finite q = true ->
  Binary64.euclidean_dist p q = Ok d -> PrimFloat.leb 0%float d = true.
Proof.
  intros Hp Hq. unfold Binary64.euclidean_dist.
  destruct (negb _); [ discriminate | ].
  destruct (mapM _ _) as [ys | e] eqn:E; cbn [bind]; [ | discriminate ].
  intros [= <-]. apply sqrt_nonneg. unfold Binary64.sum.
  apply fold_add_nonneg; [ | reflexivity ].
  apply (@squares_nonneg p q Hp Hq ys E).
Qed.
(** C9.  On binary64 floats, the distance between two points of different
    dimensions raises the ValueError on dimensions; between points of
    equal dimension the only exception is the OverflowError of a square
    out of range; the distance is symmetric, exceptions included; a
    distance that is returned is never negative, and between points with
    finite coordinates it is a number from 0 upwards, possibly infinite;
    and the distance from a point with finite coordinates to itself is
    zero. *)
Theorem euclidean_dist_binary64 (p q : list float) :
  (len p <> len q ->
     Binary64.euclidean_dist p q = Raise (ValueError dim_mismatch_msg))
  /\ (len p = len q ->
      forall e, Binary64.euclidean_dist p q = Raise e -> e = OverflowError)
  /\ Binary64.euclidean_dist p q = Binary64.euclidean_dist q p
  /\ (forall d, Binary64.euclidean_dist p q = Ok d ->
                PrimFloat.ltb d 0%float = false)
  /\ (forallb Binary64.finite p = true ->
      forallb Binary64.finite q = true ->
      forall d, Binary64.euclidean_dist p q = Ok d ->
                PrimFloat.leb 0%float d = true)
  /\ (forallb Binary64.finite p = true ->
      Binary64.euclidean_dist p p = Ok 0%float).
Proof.
  split; [ | split; [ | split; [ | split; [ | split ] ] ] ].
  - intros H. unfold Binary64.euclidean_dist.
    apply Nat.eqb_neq in H. rewrite H. reflexivity.
  - intros H e. unfold Binary64.euclidean_dist.
    apply Nat.eqb_eq in H. rewrite H. cbn [negb].
    destruct (mapM _ _) as [ ys | e' ] eqn:E; cbn [bind]; [ discriminate | ].
    intros He. injection He as <-. exact (squares_error _ _ E).
  - apply binary64_dist_sym.
  - intros d. unfold Binary64.euclidean_dist.
    destruct (negb _); [ discriminate | ].
    destruct (mapM _ _) as [ ys | e' ]; cbn [bind]; [ | discriminate ].
    intros H. injection H as <-. apply sqrt_not_negative.
  - intros Hp Hq d. apply binary64_dist_nonneg; assumption.
  - intros H. unfold Binary64.euclidean_dist.
    rewrite Nat.eqb_refl. cbn [negb].
    rewrite (squares_self p H). cbn [bind]. rewrite sum_zeros. reflexivity.
Qed.

Lemma euclidean_dist_binary64_witness :
  Binary64.euclidean_dist [0%float; 0%float] [3%float; 4%float]
  = Binary64.euclidean_dist [3%float; 4%float] [0%float; 0%float]
  /\ Binary64.euclidean_dist [0%float; 0%float] [3%float; 4%float]
     = Ok 5%float
  /\ PrimFloat.leb 0%float 5%float = true
  /\ Binary64.euclidean_dist [3%float; 4%float] [3%float; 4%float]
     = Ok 0%float
  /\ Binary64.euclidean_dist [0%float; 0%float] [3%float]
     = Raise (ValueError dim_mismatch_msg).
Proof.
  destruct (euclidean_dist_binary64 [0%float; 0%float] [3%float; 4%float])
    as [_ [_ [Hsym [_ [Hpos _]]]]].
  destruct (euclidean_dist_binary64 [3%float; 4%float] [3%float; 4%float])
    as [_ [_ [_ [_ [_ Hself]]]]].
  destruct (euclidean_dist_binary64 [0%float; 0%float] [3%float])
    as [Hdim _].
  split; [ exact Hsym | ].
  split; [ reflexivity | ].
  split; [ apply Hpos; reflexivity | ].
  split; [ apply Hself; reflexivity | apply Hdim; simpl; lia ].
Defined.

(** C9, as stated, fails: the binary64 distance is not a metric.  From
    (0, 0) to (4, 4) it is greater than the sum of the distances from
    (0, 0) to (1, 1) and from (1, 1) to (4, 4); it is zero between the
    different points 2^-600 and 0, whose squared difference underflows;
    and between 2^600 and 0 it is no number at all, but an
    OverflowError. *)
Lemma euclidean_dist_not_a_metric :
  (exists dpq dqr dpr : float,
     Binary64.euclidean_dist [0%float; 0%float] [1%float; 1%float] = Ok dpq
     /\ Binary64.euclidean_dist [1%float; 1%float] [4%float; 4%float]
        = Ok dqr
     /\ Binary64.euclidean_dist [0%float; 0%float] [4%float; 4%float]
        = Ok dpr
     /\ PrimFloat.ltb (PrimFloat.add dpq dqr) dpr = true)
  /\ (Binary64.euclidean_dist [0x1p-600%float] [0%float] = Ok 0%float
      /\ [0x1p-600%float] <> [0%float])
  /\ Binary64.euclidean_dist [0x1p600%float] [0%float] = Raise OverflowError.
Proof.
  split; [ | split; [ split | ] ].
  - eexists _, _, _. repeat split; vm_compute; reflexivity.
  - vm_compute. reflexivity.
  - intros H.
    apply (f_equal (fun l => match l with
                             | x :: _ => PrimFloat.eqb x 0%float
                             | [] => false
                             end)) in H.
    vm_compute in H. discriminate.
  - vm_compute. reflexivity.
Qed.

(** ** Node equality *)

Lemma hash_int_minus_one : hash_int (-1) = hash_int (-2).
Proof. reflexivity. Qed.

(** C3.  [__eq__] compares hashes, and CPython hashes the integers [-1]
    and [-2] alike: two nodes that differ only in their floor, [-1]
    against [-2], are equal for [__eq__], whatever the hash of strings,
    of floats and the mixing of tuples are. *)
Theorem node_eq_hash_collision :
  forall (hash_str : string -> Z) (hash_float : R -> Z)
         (hash_tuple : list Z -> Z),
    let n1 := mkNode "Hallway" "H1" (-1) [0; 0] in
    let n2 := mkNode "Hallway" "H1" (-2) [0; 0] in
    node_eq hash_str hash_float hash_tuple n1 n2 = true
    /\ floor n1 <> floor n2.
Proof.
  intros hash_str hash_float hash_tuple n1 n2. split.
  - unfold node_eq, hash_node, n1, n2. cbn [type name floor coord].
    rewrite hash_int_minus_one. apply Z.eqb_refl.
  - unfold n1, n2. cbn [floor]. lia.
Qed.

Lemma node_eq_of_eq (hash_str : string -> Z) (hash_float : R -> Z)
      (hash_tuple : list Z -> Z) (n m : EuclideanNode) :
  n = m -> node_eq hash_str hash_float hash_tuple n m = true.
Proof. intros ->. apply Z.eqb_refl. Qed.

(** ** Path expansion *)

Lemma bind_ok {A B : Type} (m : result A) (k : A -> result B) (a : A) :
  m = Ok a -> bind m k = k a.
Proof. intros ->. reflexivity. Qed.

Lemma getitem_some {K V : Type} (dec : forall a b : K, {a = b} + {a <> b})
      (d : list (K * V)) (k : K) (v : V) :
  dict_get dec d k = Some v -> getitem dec d k = Ok v.
Proof. unfold getitem. intros ->. reflexivity. Qed.

Lemma getitem_ok_iff {K V : Type} (dec : forall a b : K, {a = b} + {a <> b})
      (d : list (K * V)) (k : K) (v : V) :
  getitem dec d k = Ok v <-> dict_get dec d k = Some v.
Proof.
  unfold getitem. destruct (dict_get dec d k); split; congruence.
Qed.

Lemma index_from_end_short {A : Type} (l : list A) (k : nat) :
  (len l < k)%nat -> index_from_end l k = Raise IndexError.
Proof.
  intros H. unfold index_from_end.
  apply Nat.leb_gt in H. rewrite H. reflexivity.
Qed.

Lemma index_from_end_cons {A : Type} (x : A) (l : list A) (k : nat) :
  (k <= len l)%nat -> index_from_end (x :: l) k = index_from_end l k.
Proof.
  intros H. unfold index_from_end. cbn [List.length].
  assert (Hk : (k <=? len l)%nat = true) by (apply Nat.leb_le; exact H).
  assert (Hk' : (k <=? S (len l))%nat = true) by (apply Nat.leb_le; lia).
  rewrite Hk, Hk'.
  replace (S (len l) - k)%nat with (S (len l - k)) by lia.
  reflexivity.
Qed.

(** The route's reduced edges and their stored paths, in order. *)
Definition reduced_edges (reduced_path : list EuclideanNode) : list edge_key :=
  combine (removelast reduced_path) (tl reduced_path).

Definition stored_paths (r : ReducedGraph)
           (reduced_path : list EuclideanNode)
           (paths : list (list EuclideanNode)) : Prop :=
  Forall2 (fun uv p => dict_get edge_key_eq_dec (edge_dict r) uv = Some p)
          (reduced_edges reduced_path) paths.

(** The expansion in the words of the specification: every stored path but
    the last gives up its final node, which the next path starts with. *)
Fixpoint stitch (paths : list (list EuclideanNode)) : list EuclideanNode :=
  match paths with
  | [] => []
  | [p] => p
  | p :: rest => removelast p ++ stitch rest
  end.

(** A stored path joins its reduced edge: it runs from [u] to [v]. *)
Definition joins (uv : edge_key) (p : list EuclideanNode) : Prop :=
  hd_error p = Some (fst uv) /\ last p (fst uv) = snd uv.

Lemma expand_path_two (r : ReducedGraph) (u v : EuclideanNode) :
  expand_path r [u; v] = getitem edge_key_eq_dec (edge_dict r) (u, v).
Proof.
  unfold expand_path. cbn.
  destruct (getitem edge_key_eq_dec (edge_dict r) (u, v)); reflexivity.
Qed.

Lemma expand_path_step (r : ReducedGraph) (u v w : EuclideanNode)
      (rest : list EuclideanNode) :
  expand_path r (u :: v :: w :: rest)
  = (p <- getitem edge_key_eq_dec (edge_dict r) (u, v) ;;
     tail <- expand_path r (v :: w :: rest) ;;
     Ok (removelast p ++ tail)).
Proof.
  unfold expand_path.
  rewrite (index_from_end_cons u (v :: w :: rest) (k := 2))
    by (cbn [List.length]; lia).
  rewrite (index_from_end_cons u (v :: w :: rest) (k := 1))
    by (cbn [List.length]; lia).
  change (removelast (removelast (u :: v :: w :: rest)))
    with (u :: removelast (removelast (v :: w :: rest))).
  change (removelast (tl (u :: v :: w :: rest)))
    with (v :: removelast (tl (v :: w :: rest))).
  cbn [combine mapM].
  destruct (getitem edge_key_eq_dec (edge_dict r) (u, v)) as [p | e];
    cbn [bind]; [ | reflexivity ].
  destruct (mapM _ _) as [segs | e]; cbn [bind]; [ | reflexivity ].
  destruct (index_from_end (v :: w :: rest) 2) as [a | e];
    cbn [bind]; [ | reflexivity ].
  destruct (index_from_end (v :: w :: rest) 1) as [b | e];
    cbn [bind]; [ | reflexivity ].
  destruct (getitem edge_key_eq_dec (edge_dict r) (a, b)) as [lp | e];
    cbn [bind]; [ | reflexivity ].
  cbn [List.concat]. rewrite app_assoc. reflexivity.
Qed.

Section DictFacts.

Variables K V : Type.
Variable dec : forall a b : K, {a = b} + {a <> b}.

Lemma dict_get_setitem_eq (d : list (K * V)) (k : K) (v : V) :
  dict_get dec (setitem dec d k v) k = Some v.
Proof.
  induction d as [ | [k' v'] d IH]; cbn.
  - destruct (dec k k); [ reflexivity | contradiction ].
  - destruct (dec k k') as [E | N]; cbn.
    + destruct (dec k k'); [ reflexivity | contradiction ].
    + destruct (dec k k'); [ contradiction | exact IH ].
Qed.

Lemma dict_get_setitem_neq (d : list (K * V)) (k k' : K) (v : V) :
  k <> k' -> dict_get dec (setitem dec d k v) k' = dict_get dec d k'.
Proof.
  intros Hne. induction d as [ | [k0 v0] d IH]; cbn.
  - destruct (dec k' k); [ congruence | reflexivity ].
  - destruct (dec k k0) as [E | N]; cbn.
    + subst k0. destruct (dec k' k); [ congruence | reflexivity ].
    + destruct (dec k' k0); [ reflexivity | exact IH ].
Qed.

Lemma dict_get_In (d : list (K * V)) (k : K) (v : V) :
  dict_get dec d k = Some v -> In (k, v) d.
Proof.
  induction d as [ | [k' v'] d IH]; cbn; [ discriminate | ].
  destruct (dec k k') as [-> | N].
  - intros [= ->]. left; reflexivity.
  - intros H. right. apply IH, H.
Qed.

Lemma dict_get_keys (d : list (K * V)) (k : K) :
  dict_get dec d k <> None <-> In k (map fst d).
Proof.
  induction d as [ | [k' v'] d IH]; cbn.
  - split; [ congruence | tauto ].
  - destruct (dec k k') as [-> | N].
    + split; [ intros _; left; reflexivity | congruence ].
    + rewrite IH. split; [ tauto | intros [E | H]; [ congruence | exact H ] ].
Qed.

Lemma setitem_keys_present (d : list (K * V)) (k : K) (v : V) :
  In k (map fst d) -> map fst (setitem dec d k v) = map fst d.
Proof.
  induction d as [ | [k' v'] d IH]; cbn; [ tauto | ].
  intros Hin. destruct (dec k k') as [-> | N]; cbn.
  - reflexivity.
  - f_equal. apply IH. destruct Hin as [E | H]; [ congruence | exact H ].
Qed.

Lemma setitem_keys_absent (d : list (K * V)) (k : K) (v : V) :
  ~ In k (map fst d) -> map fst (setitem dec d k v) = map fst d ++ [k].
Proof.
  induction d as [ | [k' v'] d IH]; cbn; [ reflexivity | ].
  intros Hin. destruct (dec k k') as [-> | N]; cbn.
  - exfalso. apply Hin. left; reflexivity.
  - f_equal. apply IH. tauto.
Qed.

End DictFacts.

Lemma last_default {A : Type} (l : list A) (d d' : A) :
  l <> [] -> last l d = last l d'.
Proof.
  induction l as [ | x l IH]; [ congruence | ].
  intros _. destruct l as [ | y l]; [ reflexivity | ].
  change (last (y :: l) d = last (y :: l) d'). apply IH. discriminate.
Qed.

Lemma last_app_nonempty {A : Type} (l l' : list A) (d : A) :
  l' <> [] -> last (l ++ l') d = last l' d.
Proof.
  intros Hne. induction l as [ | x l IH]; [ reflexivity | ].
  cbn [app]. destruct (l ++ l') as [ | y t] eqn:E.
  - apply app_eq_nil in E. destruct E as [_ E]. contradiction.
  - exact IH.
Qed.

Lemma reduced_edges_cons (u v : EuclideanNode) (rest : list EuclideanNode) :
  reduced_edges (u :: v :: rest) = (u, v) :: reduced_edges (v :: rest).
Proof. reflexivity. Qed.

Lemma expand_path_stitch (r : ReducedGraph) (rest : list EuclideanNode) :
  forall (u v : EuclideanNode) (paths : list (list EuclideanNode)),
    stored_paths r (u :: v :: rest) paths ->
    expand_path r (u :: v :: rest) = Ok (stitch paths).
Proof.
  induction rest as [ | w rest IH]; intros u v paths Hst.
  - unfold stored_paths in Hst. rewrite reduced_edges_cons in Hst.
    inversion Hst as [ | uv p es ps Hp Hrest]; subst.
    inversion Hrest; subst.
    rewrite expand_path_two. apply getitem_some. exact Hp.
  - unfold stored_paths in Hst. rewrite reduced_edges_cons in Hst.
    inversion Hst as [ | uv p es ps Hp Hrest]; subst.
    rewrite expand_path_step.
    rewrite (getitem_some _ _ _ Hp). cbn [bind].
    rewrite (IH v w ps Hrest). cbn [bind].
    rewrite reduced_edges_cons in Hrest.
    inversion Hrest; subst. reflexivity.
Qed.

Lemma stitch_endpoints (rest : list EuclideanNode) :
  forall (u v : EuclideanNode) (paths : list (list EuclideanNode)),
    Forall2 joins (reduced_edges (u :: v :: rest)) paths ->
    hd_error (stitch paths) = Some u
    /\ forall d, last (stitch paths) d = last (v :: rest) d.
Proof.
  induction rest as [ | w rest IH]; intros u v paths Hj.
  - rewrite reduced_edges_cons in Hj.
    inversion Hj as [ | uv p es ps [Hhd Hlast] Hrest]; subst.
    inversion Hrest; subst. cbn [stitch fst snd] in *.
    split; [ exact Hhd | ].
    intros d. destruct p as [ | x p]; [ discriminate | ].
    rewrite (last_default d u) by discriminate. exact Hlast.
  - rewrite reduced_edges_cons in Hj.
    inversion Hj as [ | uv p es ps [Hhd Hlast] Hrest]; subst.
    destruct (IH v w ps Hrest) as [IHhd IHlast].
    cbn [fst snd] in *.
    assert (Hps : stitch ps <> []).
    { intros E. rewrite E in IHhd. discriminate. }
    assert (Hst : stitch (p :: ps) = removelast p ++ stitch ps).
    { destruct ps as [ | p2 ps]; [ contradiction Hps; reflexivity | ].
      reflexivity. }
    rewrite Hst. split.
    + destruct p as [ | x [ | y p]]; [ discriminate | | ].
      * cbn in Hhd, Hlast. injection Hhd as ->. subst v. exact IHhd.
      * cbn in Hhd. injection Hhd as ->. reflexivity.
    + intros d. rewrite last_app_nonempty by exact Hps.
      rewrite IHlast. reflexivity.
Qed.

Lemma joins_rev (u v : EuclideanNode) (p : list EuclideanNode) :
  joins (u, v) p -> joins (v, u) (rev p).
Proof.
  unfold joins; cbn [fst snd]. intros [Hhd Hlast].
  destruct p as [ | x p]; [ discriminate | ].
  cbn in Hhd. injection Hhd as Hx. subst x.
  destruct (exists_last (l := u :: p)) as [q [y Hq]]; [ discriminate | ].
  rewrite Hq in Hlast |- *. rewrite last_last in Hlast. subst y.
  rewrite rev_app_distr. cbn [rev app]. split; [ reflexivity | ].
  destruct q as [ | z q]; cbn in Hq; injection Hq as Hz _; subst.
  - reflexivity.
  - cbn [rev]. rewrite app_comm_cons. apply last_last.
Qed.

(** [add_reduced_edge] keeps every stored path joined to its edge when it
    is given a path from [u] to [v]. *)
Lemma add_reduced_edge_joins (r : ReducedGraph) (u v : EuclideanNode)
      (path : list EuclideanNode) (w : R) :
  joins (u, v) path ->
  (forall uv p, dict_get edge_key_eq_dec (edge_dict r) uv = Some p ->
                joins uv p) ->
  forall uv p,
    dict_get edge_key_eq_dec (edge_dict (add_reduced_edge r u v path w)) uv
    = Some p ->
    joins uv p.
Proof.
  intros Hpath Hr uv p. unfold add_reduced_edge. cbn [edge_dict].
  destruct (edge_key_eq_dec (v, u) uv) as [<- | N1].
  - rewrite dict_get_setitem_eq. intros [= <-]. apply joins_rev, Hpath.
  - rewrite dict_get_setitem_neq by exact N1.
    destruct (edge_key_eq_dec (u, v) uv) as [<- | N2].
    + rewrite dict_get_setitem_eq. intros [= <-]. exact Hpath.
    + rewrite dict_get_setitem_neq by exact N2. apply Hr.
Qed.

(** C7.  On a route of at least two nodes whose reduced edges all have a
    stored path, [expand_path] returns the stored paths stitched together,
    every path but the last without its final node; when every stored
    path runs from its edge's first node to its second, the walk starts
    and ends where the route does.  A two-node route with stored path
    [S, J, A] expands to [S, J, A]; the route S, A, B with stored paths
    [S, J, A] and [A, K, B] expands to [S, J, A, K, B]. *)
Theorem expand_path_correct :
  (forall (r : ReducedGraph) (reduced_path : list EuclideanNode)
          (paths : list (list EuclideanNode)),
      (2 <= len reduced_path)%nat ->
      stored_paths r reduced_path paths ->
      expand_path r reduced_path = Ok (stitch paths)
      /\ (Forall2 joins (reduced_edges reduced_path) paths ->
          hd_error (stitch paths) = hd_error reduced_path
          /\ forall d, last (stitch paths) d = last reduced_path d))
  /\ (forall (r : ReducedGraph) (S J A : EuclideanNode),
         dict_get edge_key_eq_dec (edge_dict r) (S, A) = Some [S; J; A] ->
         expand_path r [S; A] = Ok [S; J; A])
  /\ (forall (r : ReducedGraph) (S J A K B : EuclideanNode),
         dict_get edge_key_eq_dec (edge_dict r) (S, A) = Some [S; J; A] ->
         dict_get edge_key_eq_dec (edge_dict r) (A, B) = Some [A; K; B] ->
         expand_path r [S; A; B] = Ok [S; J; A; K; B]).
Proof.
  split; [ | split ].
  - intros r rp paths Hlen Hst.
    destruct rp as [ | u [ | v rest]]; cbn in Hlen; try lia.
    split; [ apply expand_path_stitch; exact Hst | ].
    intros Hj. destruct (stitch_endpoints Hj) as [Hhd Hlast].
    split; [ exact Hhd | ].
    intros d. rewrite Hlast. reflexivity.
  - intros r S J A H.
    rewrite (@expand_path_stitch r [] S A [[S; J; A]]); [ reflexivity | ].
    repeat constructor. exact H.
  - intros r S J A K B H1 H2.
    rewrite (@expand_path_stitch r [B] S A [[S; J; A]; [A; K; B]]);
      [ reflexivity | ].
    repeat constructor; assumption.
Qed.

(** Example data: three rooms and the two corridor nodes between them. *)
Definition room_S : EuclideanNode := mkNode "Classroom" "S" 1 [0; 0].
Definition hall_J : EuclideanNode := mkNode "Hallway" "J" 1 [0; 5].
Definition room_A : EuclideanNode := mkNode "Classroom" "A" 1 [5; 5].
Definition hall_K : EuclideanNode := mkNode "Hallway" "K" 1 [5; 10].
Definition room_B : EuclideanNode := mkNode "Classroom" "B" 1 [10; 10].

Definition reduced_SAB : ReducedGraph :=
  add_reduced_edge
    (add_reduced_edge (ReducedGraph_init room_S)
                      room_S room_A [room_S; hall_J; room_A] 10)
    room_A room_B [room_A; hall_K; room_B] 10.

(** Looks a concrete key up in a dictionary built by [setitem]. *)
Ltac dict_lookup :=
  repeat (rewrite dict_get_setitem_neq by discriminate);
  rewrite dict_get_setitem_eq.

Lemma reduced_SAB_edge_SA :
  dict_get edge_key_eq_dec (edge_dict reduced_SAB) (room_S, room_A)
  = Some [room_S; hall_J; room_A].
Proof.
  unfold reduced_SAB, add_reduced_edge. cbn [edge_dict ReducedGraph_init].
  dict_lookup. reflexivity.
Qed.

Lemma reduced_SAB_edge_AB :
  dict_get edge_key_eq_dec (edge_dict reduced_SAB) (room_A, room_B)
  = Some [room_A; hall_K; room_B].
Proof.
  unfold reduced_SAB, add_reduced_edge. cbn [edge_dict ReducedGraph_init].
  dict_lookup. reflexivity.
Qed.

Lemma expand_path_correct_witness :
  (expand_path reduced_SAB [room_S; room_A; room_B]
   = Ok (stitch [[room_S; hall_J; room_A]; [room_A; hall_K; room_B]])
   /\ hd_error (stitch [[room_S; hall_J; room_A]; [room_A; hall_K; room_B]])
      = Some room_S
   /\ forall d,
       last (stitch [[room_S; hall_J; room_A]; [room_A; hall_K; room_B]]) d
       = room_B)
  /\ expand_path reduced_SAB [room_S; room_A] = Ok [room_S; hall_J; room_A]
  /\ expand_path reduced_SAB [room_S; room_A; room_B]
     = Ok [room_S; hall_J; room_A; hall_K; room_B].
Proof.
  destruct expand_path_correct as [Hgen [Htwo Hthree]].
  split; [ | split ].
  - destruct (Hgen reduced_SAB [room_S; room_A; room_B]
                   [[room_S; hall_J; room_A]; [room_A; hall_K; room_B]])
      as [Hexp Hends].
    + cbn. lia.
    + repeat constructor;
        [ exact reduced_SAB_edge_SA | exact reduced_SAB_edge_AB ].
    + split; [ exact Hexp | ].
      destruct Hends as [Hhd Hlast].
      * repeat constructor.
      * split; [ exact Hhd | intros d; rewrite Hlast; reflexivity ].
  - apply Htwo. exact reduced_SAB_edge_SA.
  - apply Hthree; [ exact reduced_SAB_edge_SA | exact reduced_SAB_edge_AB ].
Defined.

Lemma Forall_stored_paths (r : ReducedGraph) (es : list edge_key) :
  Forall (fun uv => dict_get edge_key_eq_dec (edge_dict r) uv <> None) es ->
  exists paths,
    Forall2 (fun uv p => dict_get edge_key_eq_dec (edge_dict r) uv = Some p)
            es paths.
Proof.
  induction 1 as [ | uv es Huv _ [paths IH]].
  - exists []. constructor.
  - destruct (dict_get edge_key_eq_dec (edge_dict r) uv) as [p | ] eqn:E;
      [ | congruence ].
    exists (p :: paths). constructor; assumption.
Qed.

(** C10.  On a route of fewer than two nodes [expand_path] raises
    IndexError (at [reduced_path[-2]]); on a route of at least two nodes
    whose reduced edges all have a stored path it returns a walk, so no
    index or dictionary access is out of range. *)
Theorem expand_path_safety :
  forall (r : ReducedGraph) (reduced_path : list EuclideanNode),
    ((len reduced_path < 2)%nat ->
     expand_path r reduced_path = Raise IndexError)
    /\ ((2 <= len reduced_path)%nat ->
        Forall (fun uv => dict_get edge_key_eq_dec (edge_dict r) uv <> None)
               (reduced_edges reduced_path) ->
        exists full_path, expand_path r reduced_path = Ok full_path).
Proof.
  intros r rp. split.
  - intros Hlen. destruct rp as [ | x [ | y rest]]; cbn in Hlen; try lia;
      reflexivity.
  - intros Hlen Hall.
    destruct (Forall_stored_paths r Hall) as [paths Hpaths].
    destruct rp as [ | u [ | v rest]]; cbn in Hlen; try lia.
    exists (stitch paths). apply expand_path_stitch. exact Hpaths.
Qed.

Lemma expand_path_safety_witness :
  expand_path reduced_SAB [] = Raise IndexError
  /\ expand_path reduced_SAB [room_S] = Raise IndexError
  /\ exists full_path,
      expand_path reduced_SAB [room_S; room_A; room_B] = Ok full_path.
Proof.
  split; [ | split ].
  - apply (expand_path_safety reduced_SAB []). cbn. lia.
  - apply (expand_path_safety reduced_SAB [room_S]). cbn. lia.
  - apply (expand_path_safety reduced_SAB [room_S; room_A; room_B]).
    + cbn. lia.
    + repeat constructor.
      * rewrite reduced_SAB_edge_SA. discriminate.
      * rewrite reduced_SAB_edge_AB. discriminate.
Defined.

(** ** Permutations and loops *)

Section BuiltinFacts.

Variable A : Type.

Lemma selections_In (l : list A) (x : A) (r : list A) :
  In (x, r) (selections l) <->
  exists l1 l2, l = l1 ++ x :: l2 /\ r = l1 ++ l2.
Proof.
  revert x r. induction l as [ | a l IH]; intros x r; cbn.
  - split; [ tauto | ]. intros [l1 [l2 [H _]]].
    destruct l1; discriminate.
  - split.
    + intros [E | Hin].
      * injection E as -> ->. exists [], r. split; reflexivity.
      * apply in_map_iff in Hin. destruct Hin as [[y s] [E Hin]].
        injection E as -> <-. apply IH in Hin.
        destruct Hin as [l1 [l2 [-> ->]]].
        exists (a :: l1), l2. split; reflexivity.
    + intros [l1 [l2 [E ->]]]. destruct l1 as [ | b l1]; cbn in E.
      * injection E as -> ->. left; reflexivity.
      * injection E as -> ->. right.
        apply in_map_iff. exists (x, l1 ++ l2). split; [ reflexivity | ].
        apply IH. exists l1, l2. split; reflexivity.
Qed.

Lemma permutations_n_In (n : nat) :
  forall l q : list A,
    len l = n -> (In q (permutations_n n l) <-> Permutation l q).
Proof.
  induction n as [ | n IH]; intros l q Hlen.
  - destruct l; [ | discriminate ]. cbn. split.
    + intros [<- | []]. constructor.
    + intros H. apply Permutation_nil in H. left; symmetry; exact H.
  - cbn [permutations_n]. rewrite in_flat_map. split.
    + intros [[x r] [Hsel Hin]].
      apply in_map_iff in Hin. destruct Hin as [q' [<- Hq']].
      apply selections_In in Hsel. destruct Hsel as [l1 [l2 [-> ->]]].
      apply IH in Hq'.
      * symmetry. apply Permutation_cons_app. symmetry. exact Hq'.
      * rewrite length_app in Hlen |- *. cbn in Hlen. lia.
    + intros Hperm.
      destruct q as [ | x q'].
      * apply Permutation_length in Hperm. rewrite Hlen in Hperm.
        discriminate.
      * assert (Hx : In x l).
        { apply Permutation_in with (l := x :: q');
            [ symmetry; exact Hperm | left; reflexivity ]. }
        apply in_split in Hx. destruct Hx as [l1 [l2 ->]].
        exists (x, l1 ++ l2). split.
        -- apply selections_In. exists l1, l2. split; reflexivity.
        -- apply in_map. apply IH.
           ++ rewrite length_app in Hlen |- *. cbn in Hlen. lia.
           ++ symmetry. apply Permutation_cons_app_inv with (a := x).
              symmetry. exact Hperm.
Qed.

Lemma permutations_In (l q : list A) :
  In q (permutations l) <-> Permutation l q.
Proof. apply permutations_n_In. reflexivity. Qed.

Lemma mapM_ok {B : Type} (f : A -> result B) (l : list A) :
  (forall x, In x l -> exists y, f x = Ok y) ->
  exists ys, mapM f l = Ok ys.
Proof.
  induction l as [ | x l IH]; intros H; cbn.
  - exists []. reflexivity.
  - destruct (H x) as [y Hy]; [ left; reflexivity | ].
    destruct IH as [ys Hys]; [ intros z Hz; apply H; right; exact Hz | ].
    rewrite Hy, Hys. cbn. exists (y :: ys). reflexivity.
Qed.

Lemma adjacent_split (l : list A) (u v : A) :
  In (u, v) (combine (removelast l) (tl l)) ->
  exists l1 l2, l = l1 ++ u :: v :: l2.
Proof.
  induction l as [ | a l IH]; [ intros [] | ].
  destruct l as [ | b l]; [ intros [] | ].
  change (removelast (a :: b :: l)) with (a :: removelast (b :: l)).
  cbn [tl combine]. intros [E | Hin].
  - injection E as -> ->. exists [], l. reflexivity.
  - assert (Hin' : In (u, v) (combine (removelast (b :: l)) (tl (b :: l)))).
    { destruct l as [ | c l]; [ destruct Hin | ].
      change (removelast (b :: c :: l)) with (b :: removelast (c :: l)).
      exact Hin. }
    destruct (IH Hin') as [l1 [l2 E]].
    exists (a :: l1), l2. rewrite E. reflexivity.
Qed.

End BuiltinFacts.

(** ** Complete graphs and path lengths *)

(** A complete graph: the nodes are distinct and the neighbours of every
    node are exactly the other nodes. *)
Definition complete (g : Graph) : Prop :=
  NoDup (nodes g)
  /\ forall u nb,
      dict_get node_eq_dec g u = Some nb ->
      NoDup (map fst nb)
      /\ forall v, In v (map fst nb) <-> (In v (nodes g) /\ v <> u).

Lemma complete_edge_weight (g : Graph) (u v : EuclideanNode) :
  complete g -> In u (nodes g) -> In v (nodes g) -> u <> v ->
  exists w, edge_weight g u v = Ok w.
Proof.
  intros [_ Hadj] Hu Hv Hne. unfold edge_weight, getitem.
  apply (dict_get_keys node_eq_dec) in Hu.
  destruct (dict_get node_eq_dec g u) as [nb | ] eqn:Enb; [ | congruence ].
  destruct (Hadj u nb Enb) as [_ Hnb]. cbn [bind].
  assert (Hin : In v (map fst nb)) by (apply Hnb; split; congruence).
  apply (dict_get_keys node_eq_dec) in Hin.
  destruct (dict_get node_eq_dec nb v) as [a | ]; [ | congruence ].
  cbn [bind]. eexists. reflexivity.
Qed.

Lemma path_len_ok (g : Graph) (path : list EuclideanNode) :
  complete g -> NoDup path -> incl path (nodes g) ->
  exists l, _path_len g path = Ok l.
Proof.
  intros Hc Hnd Hincl. unfold _path_len.
  destruct (@mapM_ok _ _ (fun '(u, v) => edge_weight g u v)
                     (combine (removelast path) (tl path))) as [ws Hws].
  - intros [u v] Hin. apply adjacent_split in Hin.
    destruct Hin as [l1 [l2 E]]. subst path.
    apply complete_edge_weight; [ exact Hc | | | ].
    + apply Hincl, in_or_app. right. left. reflexivity.
    + apply Hincl, in_or_app. right. right. left. reflexivity.
    + apply NoDup_remove_2 in Hnd. intros ->. apply Hnd.
      apply in_or_app. right. left. reflexivity.
  - rewrite Hws. cbn [bind]. eexists. reflexivity.
Qed.

(** ** Brute force *)

Lemma brute_loop_min (graph : ReducedGraph)
      (perms : list (list EuclideanNode)) :
  (forall p, In p perms ->
             exists l, _path_len (rgraph graph) (start graph :: p) = Ok l) ->
  forall best,
  exists best',
    brute_loop graph perms best = Ok best'
    /\ (best' = best
        \/ exists p l, In p perms
                       /\ _path_len (rgraph graph) (start graph :: p) = Ok l
                       /\ best' = Some (start graph :: p, l))
    /\ (forall bp bl, best = Some (bp, bl) ->
                      exists bp' bl', best' = Some (bp', bl') /\ bl' <= bl)
    /\ (forall p l, In p perms ->
                    _path_len (rgraph graph) (start graph :: p) = Ok l ->
                    exists bp' bl', best' = Some (bp', bl') /\ bl' <= l).
Proof.
  induction perms as [ | p perms IH]; intros Hok best.
  - exists best. cbn. split; [ reflexivity | ]. split; [ left; reflexivity | ].
    split.
    + intros bp bl ->. exists bp, bl. split; [ reflexivity | lra ].
    + intros p l [].
  - destruct (Hok p) as [l Hl]; [ left; reflexivity | ].
    assert (Hok' : forall q, In q perms ->
              exists lq, _path_len (rgraph graph) (start graph :: q) = Ok lq).
    { intros q Hq. apply Hok. right. exact Hq. }
    cbn [brute_loop]. rewrite Hl. cbn [bind].
    destruct (shorter l best) eqn:Esh.
    + destruct (IH Hok' (Some (start graph :: p, l)))
        as [best' [Hrun [Horigin [Hbest Hall]]]].
      exists best'. split; [ exact Hrun | ].
      destruct (Hbest _ _ eq_refl) as [bp' [bl' [Eb' Hle]]].
      split; [ | split ].
      * right. destruct Horigin as [-> | [q [lq [Hq [Hlq ->]]]]].
        -- exists p, l. split; [ left; reflexivity | ]. split; [ exact Hl | ].
           reflexivity.
        -- exists q, lq. split; [ right; exact Hq | ].
           split; [ exact Hlq | reflexivity ].
      * intros bp bl ->. exists bp', bl'. split; [ exact Eb' | ].
        cbn in Esh. destruct (Rlt_dec l bl); [ lra | discriminate ].
      * intros q lq [<- | Hq] Hlq.
        -- exists bp', bl'. split; [ exact Eb' | ].
           rewrite Hl in Hlq. injection Hlq as <-. exact Hle.
        -- apply (Hall q lq Hq Hlq).
    + destruct best as [[bp bl] | ]; [ | discriminate ].
      cbn in Esh. destruct (Rlt_dec l bl) as [ | Hnlt]; [ discriminate | ].
      destruct (IH Hok' (Some (bp, bl)))
        as [best' [Hrun [Horigin [Hbest Hall]]]].
      exists best'. split; [ exact Hrun | ].
      destruct (Hbest _ _ eq_refl) as [bp' [bl' [Eb' Hle]]].
      split; [ | split ].
      * destruct Horigin as [-> | [q [lq [Hq [Hlq ->]]]]].
        -- left. reflexivity.
        -- right. exists q, lq. split; [ right; exact Hq | ].
           split; [ exact Hlq | reflexivity ].
      * intros bp0 bl0 [= <- <-]. exists bp', bl'.
        split; [ exact Eb' | exact Hle ].
      * intros q lq [<- | Hq] Hlq.
        -- exists bp', bl'. split; [ exact Eb' | ].
           rewrite Hl in Hlq. injection Hlq as <-. lra.
        -- apply (Hall q lq Hq Hlq).
Qed.

(** The required nodes other than [start], as [_brute_force] lists them. *)
Definition others (graph : ReducedGraph) : list EuclideanNode :=
  filter (fun node => negb (node_eqb node (start graph)))
         (nodes (rgraph graph)).

Lemma others_In (graph : ReducedGraph) (n : EuclideanNode) :
  In n (others graph) <-> In n (nodes (rgraph graph)) /\ n <> start graph.
Proof.
  unfold others. rewrite filter_In. unfold node_eqb.
  destruct (node_eq_dec n (start graph)); cbn; intuition congruence.
Qed.

Lemma route_ok (graph : ReducedGraph) (q : list EuclideanNode) :
  complete (rgraph graph) ->
  In (start graph) (nodes (rgraph graph)) ->
  Permutation (others graph) q ->
  exists l, _path_len (rgraph graph) (start graph :: q) = Ok l.
Proof.
  intros Hc Hs Hperm. apply path_len_ok; [ exact Hc | | ].
  - constructor.
    + intros Hin. apply Permutation_in with (l' := others graph) in Hin;
        [ | symmetry; exact Hperm ].
      apply others_In in Hin. destruct Hin as [_ Hne]. congruence.
    + apply Permutation_NoDup with (l := others graph); [ exact Hperm | ].
      unfold others. apply NoDup_filter. destruct Hc as [Hnd _]. exact Hnd.
  - intros n [<- | Hin]; [ exact Hs | ].
    apply Permutation_in with (l' := others graph) in Hin;
      [ | symmetry; exact Hperm ].
    apply others_In in Hin. tauto.
Qed.

Lemma brute_force_min (graph : ReducedGraph) :
  complete (rgraph graph) ->
  In (start graph) (nodes (rgraph graph)) ->
  exists p length,
    _brute_force graph = Ok (Some (start graph :: p, length))
    /\ In p (permutations (others graph))
    /\ _path_len (rgraph graph) (start graph :: p) = Ok length
    /\ forall q lq,
        In q (permutations (others graph)) ->
        _path_len (rgraph graph) (start graph :: q) = Ok lq ->
        length <= lq.
Proof.
  intros Hc Hs. unfold _brute_force. fold (others graph).
  destruct (@brute_loop_min graph (permutations (others graph))) with
    (best := @None (list EuclideanNode * R))
    as [best' [Hrun [Horigin [_ Hall]]]].
  { intros p Hp. apply permutations_In in Hp. apply route_ok; assumption. }
  destruct (@route_ok graph (others graph) Hc Hs (Permutation_refl _))
    as [l0 Hl0].
  destruct (Hall (others graph) l0) as [bp [bl [Eb _]]];
    [ apply permutations_In; reflexivity | exact Hl0 | ].
  destruct Horigin as [E | [p [l [Hp [Hl E]]]]]; [ congruence | ].
  exists p, l. rewrite Hrun, E.
  split; [ reflexivity | ].
  split; [ exact Hp | ].
  split; [ exact Hl | ].
  intros q lq Hq Hlq.
  destruct (Hall q lq Hq Hlq) as [bp' [bl' [Eb' Hle]]].
  rewrite E in Eb'. injection Eb' as _ <-. exact Hle.
Qed.

(** ** The weight of a path, edge by edge

    What [_path_len] is to compute, said without it: the weights of the
    consecutive edges of the path, read off the adjacency structure, and
    their sum taken from left to right. *)

(** The edge from [u] to [v] weighs [w]: [v] is among the neighbours
    stored for [u], and [w] is the edge's ['weight'], or 1 where the edge
    has none. *)
Definition weight_of (g : Graph) (u v : EuclideanNode) (w : R) : Prop :=
  exists nb a,
    dict_get node_eq_dec g u = Some nb
    /\ dict_get node_eq_dec nb v = Some a
    /\ w = match a with Some x => x | None => 1 end.

(** [ws] lists the weights of the edges between the consecutive nodes of
    the path, in the order of the path. *)
Inductive weights_along (g : Graph) : list EuclideanNode -> list R -> Prop :=
| weights_empty : weights_along g [] []
| weights_single (u : EuclideanNode) : weights_along g [u] []
| weights_step (u v : EuclideanNode) (rest : list EuclideanNode)
               (w : R) (ws : list R) :
    weight_of g u v w ->
    weights_along g (v :: rest) ws ->
    weights_along g (u :: v :: rest) (w :: ws).

(** The weights added up from left to right, starting from 0. *)
Definition route_weight (ws : list R) : R := fold_left Rplus ws 0.

Lemma edge_weight_weight_of (g : Graph) (u v : EuclideanNode) (w : R) :
  edge_weight g u v = Ok w <-> weight_of g u v w.
Proof.
  unfold edge_weight, weight_of, getitem. split.
  - destruct (dict_get node_eq_dec g u) as [nb | ] eqn:Eu; cbn [bind];
      [ | discriminate ].
    destruct (dict_get node_eq_dec nb v) as [a | ] eqn:Ev; cbn [bind];
      [ | discriminate ].
    intros [= <-]. exists nb, a. repeat split; assumption.
  - intros [nb [a [Hu [Hv ->]]]]. rewrite Hu. cbn [bind]. rewrite Hv.
    reflexivity.
Qed.

Lemma weights_along_mapM (g : Graph) (path : list EuclideanNode) :
  forall ws,
    mapM (fun '(u, v) => edge_weight g u v)
         (combine (removelast path) (tl path)) = Ok ws
    <-> weights_along g path ws.
Proof.
  induction path as [ | u path IH]; intros ws.
  - cbn. split.
    + intros [= <-]. constructor.
    + intros H. inversion H. reflexivity.
  - destruct path as [ | v rest].
    + cbn. split.
      * intros [= <-]. constructor.
      * intros H. inversion H. reflexivity.
    + change (removelast (u :: v :: rest)) with (u :: removelast (v :: rest)).
      cbn [tl combine mapM].
      change (combine (removelast (v :: rest)) rest)
        with (combine (removelast (v :: rest)) (tl (v :: rest))).
      split.
      * destruct (edge_weight g u v) as [w | e] eqn:Ew; cbn [bind];
          [ | discriminate ].
        destruct (mapM _ _) as [ws' | e] eqn:Em; cbn [bind];
          [ | discriminate ].
        intros [= <-]. constructor.
        -- apply edge_weight_weight_of. exact Ew.
        -- apply IH. reflexivity.
      * intros H. inversion H as [ | | u' v' rest' w ws' Hw Hrest]; subst.
        apply edge_weight_weight_of in Hw. rewrite Hw. cbn [bind].
        apply IH in Hrest. rewrite Hrest. reflexivity.
Qed.

(** [_path_len] returns a number exactly when every two consecutive nodes
    are joined by an edge, and the number is the sum of the weights of
    these edges, from left to right. *)
Lemma path_len_weights (g : Graph) (path : list EuclideanNode) (l : R) :
  _path_len g path = Ok l
  <-> exists ws, weights_along g path ws /\ l = route_weight ws.
Proof.
  unfold _path_len. split.
  - destruct (mapM _ _) as [ws | e] eqn:Em; cbn [bind]; [ | discriminate ].
    intros [= <-]. exists ws. split; [ | reflexivity ].
    apply weights_along_mapM. exact Em.
  - intros [ws [Hws ->]]. apply weights_along_mapM in Hws.
    rewrite Hws. reflexivity.
Qed.

(** C4.  On a complete reduced graph that contains [start], the
    brute-force solver returns [start] followed by a permutation of the
    other nodes, together with the sum of the weights of the edges between
    the consecutive nodes of that route; and that sum is at most the sum
    of the weights along [start] followed by any other permutation of the
    other nodes. *)
Theorem brute_force_optimal (graph : ReducedGraph) :
  complete (rgraph graph) ->
  In (start graph) (nodes (rgraph graph)) ->
  exists p length ws,
    _brute_force graph = Ok (Some (start graph :: p, length))
    /\ Permutation (others graph) p
    /\ weights_along (rgraph graph) (start graph :: p) ws
    /\ length = route_weight ws
    /\ forall q wq,
        Permutation (others graph) q ->
        weights_along (rgraph graph) (start graph :: q) wq ->
        length <= route_weight wq.
Proof.
  intros Hc Hs.
  destruct (@brute_force_min graph Hc Hs) as [p [l [Hrun [Hp [Hl Hmin]]]]].
  apply path_len_weights in Hl. destruct Hl as [ws [Hws Hsum]].
  exists p, l, ws. split; [ exact Hrun | ].
  split; [ apply permutations_In; exact Hp | ].
  split; [ exact Hws | ].
  split; [ exact Hsum | ].
  intros q wq Hq Hwq. apply (Hmin q (route_weight wq)).
  - apply permutations_In. exact Hq.
  - apply path_len_weights. exists wq. split; [ exact Hwq | reflexivity ].
Qed.

(** ** Evaluating the graph operations on concrete nodes *)

Arguments node_eq_dec : simpl never.

Lemma node_eq_dec_same (T : Type) (n : EuclideanNode) (x y : T) :
  (if node_eq_dec n n then x else y) = x.
Proof. destruct (node_eq_dec n n); [ reflexivity | contradiction ]. Qed.

Lemma node_eq_dec_diff (T : Type) (n m : EuclideanNode) (x y : T) :
  n <> m -> (if node_eq_dec n m then x else y) = y.
Proof. intros H. destruct (node_eq_dec n m); [ contradiction | reflexivity ]. Qed.

Ltac node_decide :=
  repeat first [ rewrite node_eq_dec_same
               | rewrite node_eq_dec_diff by discriminate ].

(** The graph operations on a literal adjacency list, one entry at a time. *)
Lemma add_node_nil (n : EuclideanNode) : add_node [] n = [(n, [])].
Proof. reflexivity. Qed.

Lemma add_node_cons_same (g : Graph) (n : EuclideanNode)
      (nb : list (EuclideanNode * attr)) :
  add_node ((n, nb) :: g) n = (n, nb) :: g.
Proof.
  unfold add_node, has_node. cbn [dict_get].
  rewrite node_eq_dec_same. reflexivity.
Qed.

Lemma add_node_cons_diff (g : Graph) (n m : EuclideanNode)
      (nb : list (EuclideanNode * attr)) :
  n <> m -> add_node ((m, nb) :: g) n = (m, nb) :: add_node g n.
Proof.
  intros H. unfold add_node, has_node. cbn [dict_get].
  rewrite node_eq_dec_diff by exact H.
  destruct (dict_get node_eq_dec g n); reflexivity.
Qed.

Lemma set_adj_nil (u v : EuclideanNode) (a : attr) : set_adj [] u v a = [].
Proof. reflexivity. Qed.

Lemma set_adj_cons_same (g : Graph) (u v : EuclideanNode) (a : attr)
      (nb : list (EuclideanNode * attr)) :
  set_adj ((u, nb) :: g) u v a = (u, setitem node_eq_dec nb v a) :: g.
Proof.
  unfold set_adj. cbn [dict_get setitem].
  rewrite !node_eq_dec_same. reflexivity.
Qed.

Lemma set_adj_cons_diff (g : Graph) (u v m : EuclideanNode) (a : attr)
      (nb : list (EuclideanNode * attr)) :
  u <> m -> set_adj ((m, nb) :: g) u v a = (m, nb) :: set_adj g u v a.
Proof.
  intros H. unfold set_adj. cbn [dict_get].
  rewrite node_eq_dec_diff by exact H.
  destruct (dict_get node_eq_dec g u); [ | reflexivity ].
  cbn [setitem]. rewrite node_eq_dec_diff by exact H. reflexivity.
Qed.

Lemma setitem_node_same (V : Type) (d : list (EuclideanNode * V))
      (k : EuclideanNode) (v v' : V) :
  setitem node_eq_dec ((k, v') :: d) k v = (k, v) :: d.
Proof. cbn [setitem]. rewrite node_eq_dec_same. reflexivity. Qed.

Lemma setitem_node_diff (V : Type) (d : list (EuclideanNode * V))
      (k m : EuclideanNode) (v v' : V) :
  k <> m ->
  setitem node_eq_dec ((m, v') :: d) k v = (m, v') :: setitem node_eq_dec d k v.
Proof. intros H. cbn [setitem]. rewrite node_eq_dec_diff by exact H. reflexivity. Qed.

Lemma setitem_node_nil (V : Type) (k : EuclideanNode) (v : V) :
  setitem node_eq_dec [] k v = [(k, v)].
Proof. reflexivity. Qed.

Ltac graph_eval :=
  unfold add_edge; cbv zeta;
  repeat first
    [ rewrite add_node_nil
    | rewrite add_node_cons_same
    | rewrite add_node_cons_diff by discriminate
    | rewrite set_adj_nil
    | rewrite set_adj_cons_same
    | rewrite set_adj_cons_diff by discriminate
    | rewrite setitem_node_nil
    | rewrite setitem_node_same
    | rewrite setitem_node_diff by discriminate ].

(** The scenario of the specification: S-A = 10, S-B = 14, A-B = 8. *)
Definition reduced_triangle : ReducedGraph :=
  add_reduced_edge
    (add_reduced_edge
       (add_reduced_edge (ReducedGraph_init room_S)
                         room_S room_A [room_S; room_A] 10)
       room_S room_B [room_S; room_B] 14)
    room_A room_B [room_A; room_B] 8.

Lemma rgraph_triangle :
  rgraph reduced_triangle
  = [(room_S, [(room_A, Some 10); (room_B, Some 14)]);
     (room_A, [(room_S, Some 10); (room_B, Some 8)]);
     (room_B, [(room_S, Some 14); (room_A, Some 8)])].
Proof.
  unfold reduced_triangle, add_reduced_edge, ReducedGraph_init.
  cbn [rgraph]. graph_eval. reflexivity.
Qed.

Lemma complete_triangle : complete (rgraph reduced_triangle).
Proof.
  rewrite rgraph_triangle. split.
  - cbn. repeat constructor; cbn; intuition discriminate.
  - intros u nb H. cbn [dict_get] in H.
    destruct (node_eq_dec u room_S) as [-> | NS].
    { injection H as <-. split.
      - cbn. repeat constructor; cbn; intuition discriminate.
      - intros v. cbn. split.
        + intros [<- | [<- | []]]; split; auto; discriminate.
        + intros [[<- | [<- | [<- | []]]] Hne]; auto; try contradiction. }
    destruct (node_eq_dec u room_A) as [-> | NA].
    { injection H as <-. split.
      - cbn. repeat constructor; cbn; intuition discriminate.
      - intros v. cbn. split.
        + intros [<- | [<- | []]]; split; auto; discriminate.
        + intros [[<- | [<- | [<- | []]]] Hne]; auto; try contradiction. }
    destruct (node_eq_dec u room_B) as [-> | NB]; [ | discriminate ].
    injection H as <-. split.
    + cbn. repeat constructor; cbn; intuition discriminate.
    + intros v. cbn. split.
      * intros [<- | [<- | []]]; split; auto; discriminate.
      * intros [[<- | [<- | [<- | []]]] Hne]; auto; try contradiction.
Qed.

Lemma start_in_triangle :
  In (start reduced_triangle) (nodes (rgraph reduced_triangle)).
Proof. rewrite rgraph_triangle. left. reflexivity. Qed.

Lemma brute_force_optimal_witness :
  exists p length ws,
    _brute_force reduced_triangle
    = Ok (Some (start reduced_triangle :: p, length))
    /\ Permutation (others reduced_triangle) p
    /\ weights_along (rgraph reduced_triangle)
                     (start reduced_triangle :: p) ws
    /\ length = route_weight ws
    /\ forall q wq,
        Permutation (others reduced_triangle) q ->
        weights_along (rgraph reduced_triangle)
                      (start reduced_triangle :: q) wq ->
        length <= route_weight wq.
Proof.
  apply (@brute_force_optimal reduced_triangle).
  - exact complete_triangle.
  - exact start_in_triangle.
Defined.

(** ** The greedy heuristic *)

Lemma min_loop_spec {A : Type} (key : A -> result R) (l : list A) :
  (forall x, In x l -> exists k, key x = Ok k) ->
  forall best bk,
    key best = Ok bk ->
    exists m km,
      min_loop key best bk l = Ok m
      /\ (m = best \/ In m l)
      /\ key m = Ok km /\ km <= bk
      /\ forall x kx, In x l -> key x = Ok kx -> km <= kx.
Proof.
  induction l as [ | x l IH]; intros Hok best bk Hbest.
  - exists best, bk. cbn. repeat split; auto; try lra. intros x kx [].
  - destruct (Hok x) as [k Hk]; [ left; reflexivity | ].
    assert (Hok' : forall y, In y l -> exists ky, key y = Ok ky).
    { intros y Hy. apply Hok. right. exact Hy. }
    cbn [min_loop]. rewrite Hk. cbn [bind].
    destruct (Rlt_dec k bk) as [Hlt | Hge].
    + destruct (IH Hok' x k Hk) as [m [km [Hrun [Hm [Hkm [Hle Hall]]]]]].
      exists m, km. split; [ exact Hrun | ].
      split; [ right; destruct Hm as [-> | Hm]; [ left | right ]; auto | ].
      split; [ exact Hkm | ]. split; [ lra | ].
      intros y ky [<- | Hy] Hky.
      * rewrite Hk in Hky. injection Hky as <-. exact Hle.
      * apply (Hall y ky Hy Hky).
    + destruct (IH Hok' best bk Hbest)
        as [m [km [Hrun [Hm [Hkm [Hle Hall]]]]]].
      exists m, km. split; [ exact Hrun | ].
      split; [ destruct Hm as [-> | Hm]; [ left | right; right ]; auto | ].
      split; [ exact Hkm | ]. split; [ exact Hle | ].
      intros y ky [<- | Hy] Hky.
      * rewrite Hk in Hky. injection Hky as <-. lra.
      * apply (Hall y ky Hy Hky).
Qed.

Lemma py_min_spec {A : Type} (key : A -> result R) (l : list A) :
  l <> [] ->
  (forall x, In x l -> exists k, key x = Ok k) ->
  exists m km,
    py_min key l = Ok m /\ In m l /\ key m = Ok km
    /\ forall x kx, In x l -> key x = Ok kx -> km <= kx.
Proof.
  intros Hne Hok. destruct l as [ | x l]; [ congruence | ].
  destruct (Hok x) as [k Hk]; [ left; reflexivity | ].
  destruct (@min_loop_spec A key l) with (best := x) (bk := k)
    as [m [km [Hrun [Hm [Hkm [Hle Hall]]]]]].
  - intros y Hy. apply Hok. right. exact Hy.
  - exact Hk.
  - exists m, km. cbn [py_min]. rewrite Hk. cbn [bind].
    split; [ exact Hrun | ].
    split; [ destruct Hm as [-> | Hm]; [ left | right ]; auto | ].
    split; [ exact Hkm | ].
    intros y ky [<- | Hy] Hky.
    + rewrite Hk in Hky. injection Hky as <-. exact Hle.
    + apply (Hall y ky Hy Hky).
Qed.

Lemma mem_In (n : EuclideanNode) (s : list EuclideanNode) :
  mem n s = true <-> In n s.
Proof.
  unfold mem. rewrite existsb_exists. unfold node_eqb. split.
  - intros [x [Hx E]]. destruct (node_eq_dec n x); [ subst; exact Hx | ].
    discriminate.
  - intros H. exists n. split; [ exact H | ].
    destruct (node_eq_dec n n); [ reflexivity | contradiction ].
Qed.

(** The nodes of [l] that are not in [visited]. *)
Definition unvisited_of (l visited : list EuclideanNode) : list EuclideanNode :=
  filter (fun n => negb (mem n visited)) l.

Lemma unvisited_of_In (l visited : list EuclideanNode) (n : EuclideanNode) :
  In n (unvisited_of l visited) <-> In n l /\ ~ In n visited.
Proof.
  unfold unvisited_of. rewrite filter_In, negb_true_iff.
  split; intros [H1 H2]; (split; [ exact H1 | ]).
  - intros Hin. apply mem_In in Hin. congruence.
  - destruct (mem n visited) eqn:E; [ | reflexivity ].
    apply mem_In in E. contradiction.
Qed.

Lemma neighbors_complete (graph : ReducedGraph) (u : EuclideanNode) :
  complete (rgraph graph) -> In u (nodes (rgraph graph)) ->
  exists nb,
    neighbors graph u = Ok nb /\ NoDup nb
    /\ forall v, In v nb <-> (In v (nodes (rgraph graph)) /\ v <> u).
Proof.
  intros [_ Hadj] Hu. unfold neighbors, getitem.
  apply (dict_get_keys node_eq_dec) in Hu.
  destruct (dict_get node_eq_dec (rgraph graph) u) as [nb | ] eqn:E;
    [ | congruence ].
  destruct (Hadj u nb E) as [Hnd Hin].
  exists (map fst nb). cbn [bind]. repeat split; auto; apply Hin; auto.
Qed.

(** All nodes of the graph have coordinates of one dimension, so that the
    distance between any two of them is defined. *)
Definition same_dimension (g : Graph) : Prop :=
  forall u v, In u (nodes g) -> In v (nodes g) -> len (coord u) = len (coord v).

Section GreedyFacts.

Variable set_difference :
  list EuclideanNode -> list EuclideanNode -> list EuclideanNode.

(** A set difference yields exactly the items of [s] not in [visited],
    in some order. *)
Hypothesis set_difference_perm :
  forall s visited,
    Permutation (set_difference s visited) (unvisited_of s visited).

(** [greedy_steps graph cur visited rest]: from [cur], with [visited]
    already seen, the nodes [rest] are appended one by one, each an
    unvisited neighbour of the current node at the least straight-line
    distance from it, until the current node has no unvisited neighbour. *)
Inductive greedy_steps (graph : ReducedGraph)
  : EuclideanNode -> list EuclideanNode -> list EuclideanNode -> Prop :=
| greedy_done (cur : EuclideanNode) (visited nb : list EuclideanNode) :
    neighbors graph cur = Ok nb ->
    set_difference nb visited = [] ->
    greedy_steps graph cur visited []
| greedy_step (cur nearest : EuclideanNode)
              (visited nb rest : list EuclideanNode) (d : R) :
    neighbors graph cur = Ok nb ->
    In nearest (set_difference nb visited) ->
    euclidean_dist_nodes cur nearest = Ok d ->
    (forall x dx, In x (set_difference nb visited) ->
                  euclidean_dist_nodes cur x = Ok dx -> d <= dx) ->
    greedy_steps graph nearest (nearest :: visited) rest ->
    greedy_steps graph cur visited (nearest :: rest).

Lemma unvisited_neighbors (graph : ReducedGraph) (cur : EuclideanNode)
      (visited nb : list EuclideanNode) :
  NoDup (nodes (rgraph graph)) -> NoDup nb ->
  (forall v, In v nb <-> (In v (nodes (rgraph graph)) /\ v <> cur)) ->
  In cur visited ->
  Permutation (set_difference nb visited)
              (unvisited_of (nodes (rgraph graph)) visited).
Proof.
  intros Hnd Hnb Hin Hcur.
  rewrite set_difference_perm.
  apply NoDup_Permutation.
  - apply NoDup_filter, Hnb.
  - apply NoDup_filter, Hnd.
  - intros v. rewrite !unvisited_of_In, Hin.
    split; [ tauto | ]. intros [Hv Hnv]. repeat split; auto.
    intros ->. contradiction.
Qed.

Lemma unvisited_pick (l visited : list EuclideanNode) (m : EuclideanNode) :
  NoDup l -> In m l -> ~ In m visited ->
  Permutation (unvisited_of l visited)
              (m :: unvisited_of l (m :: visited)).
Proof.
  intros Hnd Hm Hnv. apply NoDup_Permutation.
  - apply NoDup_filter, Hnd.
  - constructor.
    + rewrite unvisited_of_In. intros [_ H]. apply H. left. reflexivity.
    + apply NoDup_filter, Hnd.
  - intros v. cbn [In]. rewrite !unvisited_of_In. cbn [In]. split.
    + intros [Hv Hn]. destruct (node_eq_dec m v) as [E | N]; [ left; auto | ].
      right. split; [ exact Hv | ]. intros [E | H]; auto.
    + intros [<- | [Hv Hn]]; [ split; assumption | ].
      split; [ exact Hv | ]. intros H. apply Hn. right. exact H.
Qed.

Lemma greedy_loop_route (graph : ReducedGraph) :
  complete (rgraph graph) -> same_dimension (rgraph graph) ->
  forall (fuel : nat) (cur : EuclideanNode)
         (greedy_path visited : list EuclideanNode),
    In cur visited -> incl visited (nodes (rgraph graph)) ->
    (len (unvisited_of (nodes (rgraph graph)) visited) <= fuel)%nat ->
    exists rest,
      greedy_loop set_difference fuel graph cur greedy_path visited
      = Some (Ok (greedy_path ++ rest))
      /\ greedy_steps graph cur visited rest
      /\ Permutation (unvisited_of (nodes (rgraph graph)) visited) rest.
Proof.
  intros Hc Hdim. induction fuel as [ | fuel IH];
    intros cur path visited Hcur Hincl Hfuel.
  - destruct (@neighbors_complete graph cur Hc (Hincl cur Hcur))
      as [nb [Hnb [Hnd Hin]]].
    pose proof (@unvisited_neighbors graph cur visited nb
                  (proj1 Hc) Hnd Hin Hcur) as HU.
    cbn [greedy_loop]. rewrite Hnb.
    destruct (set_difference nb visited) as [ | x U] eqn:EU.
    + exists []. rewrite app_nil_r. split; [ reflexivity | ].
      split; [ apply greedy_done with (nb := nb); assumption | ].
      symmetry. exact HU.
    + apply Permutation_length in HU. cbn in HU. lia.
  - destruct (@neighbors_complete graph cur Hc (Hincl cur Hcur))
      as [nb [Hnb [Hnd Hin]]].
    pose proof (@unvisited_neighbors graph cur visited nb
                  (proj1 Hc) Hnd Hin Hcur) as HU.
    cbn [greedy_loop]. rewrite Hnb.
    destruct (set_difference nb visited) as [ | x U] eqn:EU.
    + exists []. rewrite app_nil_r. split; [ reflexivity | ].
      split; [ apply greedy_done with (nb := nb); assumption | ].
      symmetry. exact HU.
    + assert (HUin : forall y, In y (x :: U) ->
                In y (nodes (rgraph graph)) /\ ~ In y visited).
      { intros y Hy. apply unvisited_of_In.
        apply Permutation_in with (l := x :: U); assumption. }
      destruct (@py_min_spec _ (euclidean_dist_nodes cur) (x :: U))
        as [m [km [Hmin [Hm [Hkm Hall]]]]]; [ discriminate | | ].
      { intros y Hy. eexists. apply euclidean_dist_ok.
        apply Hdim; [ apply Hincl, Hcur | apply HUin, Hy ]. }
      rewrite Hmin.
      destruct (HUin m Hm) as [Hmn Hmv].
      pose proof (@unvisited_pick _ visited m (proj1 Hc) Hmn Hmv) as Hpick.
      destruct (IH m (path ++ [m]) (m :: visited)) as [rest [Hrun [Hst Hp]]].
      * left. reflexivity.
      * intros y [<- | Hy]; [ exact Hmn | apply Hincl, Hy ].
      * apply Permutation_length in Hpick. cbn in Hpick. lia.
      * exists (m :: rest). rewrite Hrun, <- app_assoc.
        split; [ reflexivity | ]. split.
        -- apply greedy_step with (nb := nb) (d := km); try assumption;
             rewrite EU; assumption.
        -- rewrite Hpick. constructor. exact Hp.
Qed.

End GreedyFacts.

Lemma others_unvisited (graph : ReducedGraph) :
  others graph = unvisited_of (nodes (rgraph graph)) [start graph].
Proof.
  unfold others, unvisited_of. apply filter_ext. intros n.
  unfold mem. cbn [existsb]. rewrite orb_false_r. reflexivity.
Qed.

Lemma greedy_route
      (set_difference :
         list EuclideanNode -> list EuclideanNode -> list EuclideanNode)
      (graph : ReducedGraph) :
  (forall s visited,
      Permutation (set_difference s visited) (unvisited_of s visited)) ->
  complete (rgraph graph) ->
  same_dimension (rgraph graph) ->
  In (start graph) (nodes (rgraph graph)) ->
  exists route length,
    _greedy set_difference graph = Some (Ok (start graph :: route, length))
    /\ greedy_steps set_difference graph (start graph) [start graph] route
    /\ Permutation (others graph) route
    /\ _path_len (rgraph graph) (start graph :: route) = Ok length.
Proof.
  intros Hsd Hc Hdim Hs.
  destruct (@greedy_loop_route set_difference Hsd graph Hc Hdim
              (len (nodes (rgraph graph))) (start graph)
              [start graph] [start graph])
    as [route [Hrun [Hsteps Hperm]]].
  - left. reflexivity.
  - intros n [<- | []]. exact Hs.
  - unfold unvisited_of. apply filter_length_le.
  - rewrite <- others_unvisited in Hperm.
    destruct (@route_ok graph route Hc Hs Hperm) as [l Hl].
    exists route, l. unfold _greedy. rewrite Hrun.
    cbn [app bind]. rewrite Hl. cbn [bind].
    repeat split; assumption.
Qed.


(** C8.  On a complete reduced graph that contains [start], both solvers
    return a route from [start]; the brute-force length is at most the
    greedy length, and the two are equal when no ordering of the other
    nodes is shorter than the greedy one. *)
Theorem brute_force_dominates_greedy
        (set_difference :
           list EuclideanNode -> list EuclideanNode -> list EuclideanNode)
        (graph : ReducedGraph) :
  (forall s visited,
      Permutation (set_difference s visited) (unvisited_of s visited)) ->
  complete (rgraph graph) ->
  same_dimension (rgraph graph) ->
  In (start graph) (nodes (rgraph graph)) ->
  exists brute_path brute_len greedy_path greedy_len,
    _brute_force graph = Ok (Some (brute_path, brute_len))
    /\ _greedy set_difference graph = Some (Ok (greedy_path, greedy_len))
    /\ brute_len <= greedy_len
    /\ ((forall q lq,
            Permutation (others graph) q ->
            _path_len (rgraph graph) (start graph :: q) = Ok lq ->
            greedy_len <= lq) ->
        brute_len = greedy_len).
Proof.
  intros Hsd Hc Hdim Hs.
  destruct (@brute_force_min graph Hc Hs) as [p [lb [Hb [Hp [Hlb Hmin]]]]].
  destruct (@greedy_route set_difference graph Hsd Hc Hdim Hs) as [route [lg [Hg [_ [Hperm Hlg]]]]].
  exists (start graph :: p), lb, (start graph :: route), lg.
  split; [ exact Hb | ]. split; [ exact Hg | ].
  assert (Hle : lb <= lg).
  { apply (Hmin route lg); [ apply permutations_In; exact Hperm | exact Hlg ]. }
  split; [ exact Hle | ].
  intros Hopt.
  assert (Hge : lg <= lb).
  { apply (Hopt p lb); [ apply permutations_In; exact Hp | exact Hlb ]. }
  lra.
Qed.

(** ** Concrete runs of the solvers *)

(** A set difference that keeps the order of its first argument. *)
Definition plain_difference (s visited : list EuclideanNode)
  : list EuclideanNode :=
  unvisited_of s visited.

Lemma plain_difference_perm (s visited : list EuclideanNode) :
  Permutation (plain_difference s visited) (unvisited_of s visited).
Proof. reflexivity. Qed.

Lemma same_dimension_triangle : same_dimension (rgraph reduced_triangle).
Proof.
  rewrite rgraph_triangle. intros u v Hu Hv. cbn in Hu, Hv.
  destruct Hu as [<- | [<- | [<- | []]]];
    destruct Hv as [<- | [<- | [<- | []]]]; reflexivity.
Qed.


Lemma brute_force_dominates_greedy_witness :
  exists brute_path brute_len greedy_path greedy_len,
    _brute_force reduced_triangle = Ok (Some (brute_path, brute_len))
    /\ _greedy plain_difference reduced_triangle
       = Some (Ok (greedy_path, greedy_len))
    /\ brute_len <= greedy_len
    /\ ((forall q lq,
            Permutation (others reduced_triangle) q ->
            _path_len (rgraph reduced_triangle)
                      (start reduced_triangle :: q) = Ok lq ->
            greedy_len <= lq) ->
        brute_len = greedy_len).
Proof.
  apply (@brute_force_dominates_greedy plain_difference reduced_triangle).
  - exact plain_difference_perm.
  - exact complete_triangle.
  - exact same_dimension_triangle.
  - exact start_in_triangle.
Defined.













Ltac weight_eval :=
  unfold edge_weight, getitem; cbn [dict_get bind]; node_decide;
  cbn [dict_get bind]; node_decide; cbn [bind].





(** ** The solver's entry point *)

Lemma bullet_points_text :
  _bullet_points
  = (String "010" (String "009" "- greedy")
     ++ String "010" (String "009" "- brute force"))%string.
Proof. reflexivity. Qed.

Lemma string_append_assoc (a b c : string) :
  (a ++ (b ++ c) = (a ++ b) ++ c)%string.
Proof.
  induction a as [ | x a IH]; cbn [String.append];
    [ reflexivity | rewrite IH; reflexivity ].
Qed.

Lemma tsp_solver_not_implemented
      (set_difference :
         list EuclideanNode -> list EuclideanNode -> list EuclideanNode)
      (astar_path :
         Graph -> EuclideanNode -> EuclideanNode -> result (list EuclideanNode))
      (g : EuclideanGraph) (nodes : list string) (start algorithm : string)
      (reduced : ReducedGraph) :
  _reduce_graph astar_path g nodes start = Ok reduced ->
  lower algorithm <> "greedy"%string ->
  lower algorithm <> "brute force"%string ->
  tsp_solver set_difference astar_path g nodes start algorithm
  = Some (Raise (NotImplementedError (not_implemented_msg algorithm))).
Proof.
  intros Hred Hg Hb. unfold tsp_solver. rewrite Hred.
  apply String.eqb_neq in Hg. apply String.eqb_neq in Hb.
  rewrite Hg, Hb. reflexivity.
Qed.

(** C5 (as the code has it).  The algorithm name is lower-cased and
    compared with "greedy" and "brute force" (with a space).  For every
    other name, once the graph has been reduced, solving raises
    NotImplementedError, no route is produced, and the message ends with
    the list of the two names; when the reduction itself raises, that
    exception is the outcome. *)
Theorem tsp_solver_unknown_algorithm
        (set_difference :
           list EuclideanNode -> list EuclideanNode -> list EuclideanNode)
        (astar_path :
           Graph -> EuclideanNode -> EuclideanNode ->
           result (list EuclideanNode))
        (g : EuclideanGraph) (nodes : list string)
        (start algorithm : string) :
  lower algorithm <> "greedy"%string ->
  lower algorithm <> "brute force"%string ->
  _implemented = ["greedy"%string; "brute force"%string]
  /\ (forall reduced,
         _reduce_graph astar_path g nodes start = Ok reduced ->
         tsp_solver set_difference astar_path g nodes start algorithm
         = Some (Raise (NotImplementedError (not_implemented_msg algorithm)))
         /\ exists prefix,
             not_implemented_msg algorithm
             = (prefix
                ++ String "010" (String "009" "- greedy")
                ++ String "010" (String "009" "- brute force"))%string)
  /\ (forall e,
         _reduce_graph astar_path g nodes start = Raise e ->
         tsp_solver set_difference astar_path g nodes start algorithm
         = Some (Raise e)).
Proof.
  intros Hg Hb. split; [ reflexivity | ]. split.
  - intros reduced Hred. split.
    + apply tsp_solver_not_implemented with (reduced := reduced); assumption.
    + unfold not_implemented_msg. rewrite bullet_points_text.
      eexists. rewrite string_append_assoc. reflexivity.
  - intros e Hred. unfold tsp_solver. rewrite Hred. reflexivity.
Qed.

(** Two rooms joined by one corridor of length 5. *)
Definition room_P : EuclideanNode := mkNode "Classroom" "P" 1 [0; 0].
Definition room_Q : EuclideanNode := mkNode "Classroom" "Q" 1 [3; 4].

Definition two_rooms : EuclideanGraph :=
  mkEuclideanGraph
    [(room_P, [(room_Q, Some 5)]); (room_Q, [(room_P, Some 5)])]
    [("P"%string, room_P); ("Q"%string, room_Q)].

(** A search that answers with the direct edge. *)
Definition direct_astar (g : Graph) (source target : EuclideanNode)
  : result (list EuclideanNode) :=
  Ok [source; target].

Definition reduced_two_rooms : ReducedGraph :=
  add_reduced_edge (ReducedGraph_init room_P) room_P room_Q
                   [room_P; room_Q] (sum_R [5]).

Lemma reduce_two_rooms :
  _reduce_graph direct_astar two_rooms ["P"%string; "Q"%string] "P"
  = Ok reduced_two_rooms.
Proof.
  unfold _reduce_graph, reduce_step, getitem, direct_astar, _path_len.
  cbn [combinations2 map app foldM node_dict two_rooms graph dict_get
       string_dec bind removelast tl combine mapM].
  cbn. weight_eval. reflexivity.
Qed.

Lemma tsp_solver_unknown_algorithm_witness :
  _implemented = ["greedy"%string; "brute force"%string]
  /\ (forall reduced,
         _reduce_graph direct_astar two_rooms ["P"%string; "Q"%string] "P"
         = Ok reduced ->
         tsp_solver plain_difference direct_astar two_rooms
                    ["P"%string; "Q"%string] "P" "Dijkstra"
         = Some (Raise (NotImplementedError (not_implemented_msg "Dijkstra")))
         /\ exists prefix,
             not_implemented_msg "Dijkstra"
             = (prefix
                ++ String "010" (String "009" "- greedy")
                ++ String "010" (String "009" "- brute force"))%string)
  /\ (forall e,
         _reduce_graph direct_astar two_rooms ["P"%string; "Q"%string] "P"
         = Raise e ->
         tsp_solver plain_difference direct_astar two_rooms
                    ["P"%string; "Q"%string] "P" "Dijkstra"
         = Some (Raise e)).
Proof.
  apply (@tsp_solver_unknown_algorithm plain_difference direct_astar
           two_rooms ["P"%string; "Q"%string] "P"%string "Dijkstra"%string).
  - vm_compute. discriminate.
  - vm_compute. discriminate.
Defined.

Lemma rgraph_two_rooms :
  rgraph reduced_two_rooms
  = [(room_P, [(room_Q, Some (sum_R [5]))]);
     (room_Q, [(room_P, Some (sum_R [5]))])].
Proof.
  unfold reduced_two_rooms, add_reduced_edge, ReducedGraph_init.
  cbn [rgraph]. graph_eval. reflexivity.
Qed.

Lemma edge_two_rooms_P_Q :
  dict_get edge_key_eq_dec (edge_dict reduced_two_rooms) (room_P, room_Q)
  = Some [room_P; room_Q].
Proof.
  unfold reduced_two_rooms, add_reduced_edge. cbn [edge_dict ReducedGraph_init].
  dict_lookup. reflexivity.
Qed.

Lemma brute_force_two_rooms :
  _brute_force reduced_two_rooms
  = Ok (Some ([room_P; room_Q], sum_R [sum_R [5]])).
Proof.
  unfold _brute_force. rewrite rgraph_two_rooms.
  change (start reduced_two_rooms) with room_P.
  unfold node_eqb. cbn [nodes map fst filter]. node_decide.
  cbn [negb filter permutations permutations_n selections List.length
       flat_map map app brute_loop].
  unfold _path_len. cbn [removelast tl combine mapM].
  rewrite rgraph_two_rooms. weight_eval. reflexivity.
Qed.

(** C5, as stated, fails: "brute force", with a space, is outside the set
    {"brute-force", "greedy"} and yet is solved, while "brute-force" is
    refused. *)
Lemma brute_force_name_has_a_space :
  tsp_solver plain_difference direct_astar two_rooms
             ["P"%string; "Q"%string] "P" "brute force"
  = Some (Ok ([room_P; room_Q], sum_R [sum_R [5]]))
  /\ tsp_solver plain_difference direct_astar two_rooms
                ["P"%string; "Q"%string] "P" "brute-force"
     = Some (Raise (NotImplementedError (not_implemented_msg "brute-force"))).
Proof.
  split.
  - unfold tsp_solver. rewrite reduce_two_rooms.
    replace (String.eqb (lower "brute force") "greedy") with false
      by (vm_compute; reflexivity).
    replace (String.eqb (lower "brute force") "brute force") with true
      by (vm_compute; reflexivity).
    rewrite brute_force_two_rooms. cbn [bind].
    rewrite expand_path_two.
    rewrite (getitem_some _ _ _ edge_two_rooms_P_Q). reflexivity.
  - apply tsp_solver_not_implemented with (reduced := reduced_two_rooms).
    + exact reduce_two_rooms.
    + vm_compute. discriminate.
    + vm_compute. discriminate.
Qed.

(** ** Nearest neighbours and connectivity repair *)




Section SortFacts.

Variable A : Type.






End SortFacts.



Lemma euclidean_dist_ok_len (p q : point) (d : R) :
  euclidean_dist p q = Ok d -> len p = len q.
Proof.
  unfold euclidean_dist. destruct (len p =? len q)%nat eqn:E; cbn.
  - intros _. apply Nat.eqb_eq. exact E.
  - discriminate.
Qed.


(** * Further properties of the route engine *)

(** ** The adjacency structure under [add_edge] *)

Lemma dict_get_app {K V : Type} (dec : forall a b : K, {a = b} + {a <> b})
      (d1 d2 : list (K * V)) (k : K) :
  dict_get dec (d1 ++ d2) k
  = match dict_get dec d1 k with
    | Some v => Some v
    | None => dict_get dec d2 k
    end.
Proof.
  induction d1 as [ | [k' v'] d1 IH]; cbn; [ reflexivity | ].
  destruct (dec k k'); [ reflexivity | exact IH ].
Qed.

(** [graph[x]] with a node that is not in the graph read as having no
    neighbour. *)
Definition nbrs (g : Graph) (x : EuclideanNode) : list (EuclideanNode * attr) :=
  match dict_get node_eq_dec g x with
  | Some nb => nb
  | None => []
  end.

Lemma dict_get_add_node (g : Graph) (n x : EuclideanNode) :
  dict_get node_eq_dec (add_node g n) x
  = match dict_get node_eq_dec g x with
    | Some nb => Some nb
    | None => if node_eq_dec x n then Some [] else None
    end.
Proof.
  unfold add_node, has_node.
  destruct (dict_get node_eq_dec g n) as [nb | ] eqn:En.
  - destruct (dict_get node_eq_dec g x) as [nbx | ] eqn:Ex; [ reflexivity | ].
    destruct (node_eq_dec x n) as [-> | N]; [ congruence | reflexivity ].
  - rewrite dict_get_app. cbn [dict_get].
    destruct (dict_get node_eq_dec g x); reflexivity.
Qed.

Lemma dict_get_set_adj (g : Graph) (u v x : EuclideanNode) (a : attr) :
  dict_get node_eq_dec (set_adj g u v a) x
  = if node_eq_dec x u
    then match dict_get node_eq_dec g u with
         | Some nb => Some (setitem node_eq_dec nb v a)
         | None => None
         end
    else dict_get node_eq_dec g x.
Proof.
  unfold set_adj. destruct (dict_get node_eq_dec g u) as [nb | ] eqn:Eu.
  - destruct (node_eq_dec x u) as [-> | N].
    + apply dict_get_setitem_eq.
    + apply dict_get_setitem_neq. congruence.
  - destruct (node_eq_dec x u) as [-> | N]; [ exact Eu | reflexivity ].
Qed.

Ltac node_cases :=
  repeat first [ rewrite node_eq_dec_same
               | rewrite node_eq_dec_diff by congruence ].

(** The adjacency of every node after [add_edge g u v w]. *)
Lemma dict_get_add_edge (g : Graph) (u v x : EuclideanNode) (w : R) :
  dict_get node_eq_dec (add_edge g u v w) x
  = if node_eq_dec x v then
      Some (setitem node_eq_dec
              (if node_eq_dec v u
               then setitem node_eq_dec (nbrs g u) v (Some w)
               else nbrs g v)
              u (Some w))
    else if node_eq_dec x u then
      Some (setitem node_eq_dec (nbrs g u) v (Some w))
    else dict_get node_eq_dec g x.
Proof.
  unfold add_edge, nbrs. cbv zeta.
  rewrite !dict_get_set_adj, !dict_get_add_node.
  destruct (node_eq_dec x v) as [-> | Nxv].
  - destruct (node_eq_dec v u) as [-> | Nvu].
    + destruct (dict_get node_eq_dec g u); node_cases; reflexivity.
    + destruct (dict_get node_eq_dec g u); destruct (dict_get node_eq_dec g v);
        node_cases; reflexivity.
  - destruct (node_eq_dec x u) as [-> | Nxu].
    + destruct (dict_get node_eq_dec g u); node_cases; reflexivity.
    + destruct (dict_get node_eq_dec g u); destruct (dict_get node_eq_dec g x);
        node_cases; reflexivity.
Qed.

Lemma edge_weight_nbrs (g : Graph) (x y : EuclideanNode) :
  edge_weight g x y
  = match dict_get node_eq_dec (nbrs g x) y with
    | Some a => Ok (match a with Some w => w | None => 1 end)
    | None => Raise KeyError
    end.
Proof.
  unfold edge_weight, nbrs, getitem.
  destruct (dict_get node_eq_dec g x) as [nb | ]; cbn [bind dict_get];
    [ | reflexivity ].
  destruct (dict_get node_eq_dec nb y); reflexivity.
Qed.

Lemma nbrs_add_edge (g : Graph) (u v x : EuclideanNode) (w : R) :
  nbrs (add_edge g u v w) x
  = if node_eq_dec x v then
      setitem node_eq_dec
              (if node_eq_dec v u
               then setitem node_eq_dec (nbrs g u) v (Some w)
               else nbrs g v)
              u (Some w)
    else if node_eq_dec x u then setitem node_eq_dec (nbrs g u) v (Some w)
    else nbrs g x.
Proof.
  unfold nbrs at 1. rewrite dict_get_add_edge.
  destruct (node_eq_dec x v); [ reflexivity | ].
  destruct (node_eq_dec x u); reflexivity.
Qed.

Lemma edge_weight_add_edge (g : Graph) (u v : EuclideanNode) (w : R) :
  edge_weight (add_edge g u v w) u v = Ok w.
Proof.
  rewrite edge_weight_nbrs, nbrs_add_edge.
  destruct (node_eq_dec u v) as [-> | N].
  - rewrite dict_get_setitem_eq. reflexivity.
  - rewrite node_eq_dec_same, dict_get_setitem_eq. reflexivity.
Qed.

Lemma edge_weight_add_edge_back (g : Graph) (u v : EuclideanNode) (w : R) :
  edge_weight (add_edge g u v w) v u = Ok w.
Proof.
  rewrite edge_weight_nbrs, nbrs_add_edge, node_eq_dec_same.
  rewrite dict_get_setitem_eq. reflexivity.
Qed.

Lemma edge_weight_add_edge_other (g : Graph) (u v x y : EuclideanNode) (w : R) :
  (x, y) <> (u, v) -> (x, y) <> (v, u) ->
  edge_weight (add_edge g u v w) x y = edge_weight g x y.
Proof.
  intros N1 N2. rewrite !edge_weight_nbrs, nbrs_add_edge.
  destruct (node_eq_dec x v) as [-> | Nxv].
  - assert (Nyu : u <> y) by congruence.
    rewrite dict_get_setitem_neq by exact Nyu.
    destruct (node_eq_dec v u) as [-> | Nvu]; [ | reflexivity ].
    rewrite dict_get_setitem_neq by exact Nyu. reflexivity.
  - destruct (node_eq_dec x u) as [-> | Nxu]; [ | reflexivity ].
    rewrite dict_get_setitem_neq by congruence. reflexivity.
Qed.

Lemma In_nodes_add_edge (g : Graph) (u v x : EuclideanNode) (w : R) :
  In x (nodes (add_edge g u v w)) <-> In x (nodes g) \/ x = u \/ x = v.
Proof.
  unfold nodes. rewrite <- !(dict_get_keys node_eq_dec).
  rewrite dict_get_add_edge.
  destruct (node_eq_dec x v) as [-> | Nxv].
  - split; [ auto | discriminate ].
  - destruct (node_eq_dec x u) as [-> | Nxu].
    + split; [ auto | discriminate ].
    + split; [ auto | intros [H | [H | H]]; [ exact H | | ]; contradiction ].
Qed.

(** ** [ReducedGraph.add_reduced_edge] *)

Lemma add_reduced_edge_lookup (r : ReducedGraph) (u v : EuclideanNode)
      (path : list EuclideanNode) (w : R) :
  dict_get edge_key_eq_dec (edge_dict (add_reduced_edge r u v path w)) (v, u)
  = Some (rev path)
  /\ (u <> v ->
      dict_get edge_key_eq_dec (edge_dict (add_reduced_edge r u v path w))
               (u, v)
      = Some path)
  /\ (forall k,
         k <> (u, v) -> k <> (v, u) ->
         dict_get edge_key_eq_dec (edge_dict (add_reduced_edge r u v path w)) k
         = dict_get edge_key_eq_dec (edge_dict r) k)
  /\ edge_weight (rgraph (add_reduced_edge r u v path w)) u v = Ok w
  /\ edge_weight (rgraph (add_reduced_edge r u v path w)) v u = Ok w
  /\ (forall x y,
         (x, y) <> (u, v) -> (x, y) <> (v, u) ->
         edge_weight (rgraph (add_reduced_edge r u v path w)) x y
         = edge_weight (rgraph r) x y).
Proof.
  unfold add_reduced_edge. cbn [edge_dict rgraph start].
  split; [ apply dict_get_setitem_eq | ].
  split.
  { intros N. rewrite dict_get_setitem_neq by congruence.
    apply dict_get_setitem_eq. }
  split.
  { intros k N1 N2. rewrite !dict_get_setitem_neq by congruence.
    reflexivity. }
  split; [ apply edge_weight_add_edge | ].
  split; [ apply edge_weight_add_edge_back | ].
  intros x y N1 N2. apply edge_weight_add_edge_other; assumption.
Qed.

(** X1.  After [add_reduced_edge(u, v, path, weight=w)] the reversed path
    is stored under [(v, u)] and, when [u] and [v] differ, the path itself
    under [(u, v)]; the edge between [u] and [v] weighs [w] in both
    directions; every other stored path and every other edge weight is as
    before, and so is [start].  (With [u = v] the single key holds the
    reversed path, the second assignment.) *)
Theorem add_reduced_edge_round_trip (r : ReducedGraph) (u v : EuclideanNode)
        (path : list EuclideanNode) (w : R) :
  dict_get edge_key_eq_dec (edge_dict (add_reduced_edge r u v path w)) (v, u)
  = Some (rev path)
  /\ (u <> v ->
      dict_get edge_key_eq_dec (edge_dict (add_reduced_edge r u v path w))
               (u, v)
      = Some path)
  /\ (forall k,
         k <> (u, v) -> k <> (v, u) ->
         dict_get edge_key_eq_dec (edge_dict (add_reduced_edge r u v path w)) k
         = dict_get edge_key_eq_dec (edge_dict r) k)
  /\ edge_weight (rgraph (add_reduced_edge r u v path w)) u v = Ok w
  /\ edge_weight (rgraph (add_reduced_edge r u v path w)) v u = Ok w
  /\ (forall x y,
         (x, y) <> (u, v) -> (x, y) <> (v, u) ->
         edge_weight (rgraph (add_reduced_edge r u v path w)) x y
         = edge_weight (rgraph r) x y)
  /\ start (add_reduced_edge r u v path w) = start r.
Proof.
  destruct (add_reduced_edge_lookup r u v path w)
    as [H1 [H2 [H3 [H4 [H5 H6]]]]].
  repeat split; assumption || reflexivity.
Qed.

(** ** [ReducedGraph.expand_path]: a route with an edge that is not stored *)

Lemma expand_path_missing (r : ReducedGraph) (rest : list EuclideanNode) :
  forall (u v : EuclideanNode) (uv : edge_key),
    In uv (reduced_edges (u :: v :: rest)) ->
    dict_get edge_key_eq_dec (edge_dict r) uv = None ->
    expand_path r (u :: v :: rest) = Raise KeyError.
Proof.
  induction rest as [ | w rest IH]; intros u v uv Hin Hnone.
  - rewrite expand_path_two. destruct Hin as [<- | []].
    unfold getitem. rewrite Hnone. reflexivity.
  - rewrite expand_path_step. rewrite reduced_edges_cons in Hin.
    destruct Hin as [<- | Hin].
    + unfold getitem. rewrite Hnone. reflexivity.
    + rewrite (IH v w uv Hin Hnone). unfold getitem.
      destruct (dict_get edge_key_eq_dec (edge_dict r) (u, v)); reflexivity.
Qed.

(** X2.  When some pair of consecutive nodes of the route has no stored
    path, [expand_path] raises KeyError, wherever in the route the pair
    is; no partial walk is returned. *)
Theorem expand_path_unknown_edge (r : ReducedGraph)
        (reduced_path : list EuclideanNode) (uv : edge_key) :
  In uv (reduced_edges reduced_path) ->
  dict_get edge_key_eq_dec (edge_dict r) uv = None ->
  expand_path r reduced_path = Raise KeyError.
Proof.
  intros Hin Hnone.
  destruct reduced_path as [ | u [ | v rest]]; [ destruct Hin | destruct Hin | ].
  apply expand_path_missing with (uv := uv); assumption.
Qed.

Lemma expand_path_unknown_edge_witness :
  expand_path reduced_SAB [room_A; room_S; room_B] = Raise KeyError.
Proof.
  apply (@expand_path_unknown_edge reduced_SAB [room_A; room_S; room_B]
           (room_S, room_B)).
  - right. left. reflexivity.
  - unfold reduced_SAB, add_reduced_edge. cbn [edge_dict ReducedGraph_init].
    repeat (rewrite dict_get_setitem_neq by discriminate). reflexivity.
Defined.

(** ** The size of the expanded walk *)

Lemma joins_nonempty (uv : edge_key) (p : list EuclideanNode) :
  joins uv p -> p <> [].
Proof. intros [Hhd _] ->. discriminate. Qed.

Lemma joins_snoc (u v : EuclideanNode) (p : list EuclideanNode) :
  joins (u, v) p -> p = removelast p ++ [v].
Proof.
  intros Hj. pose proof (joins_nonempty Hj) as Hne.
  destruct Hj as [_ Hlast]. cbn [fst snd] in Hlast.
  rewrite <- Hlast. apply app_removelast_last. exact Hne.
Qed.

Lemma stitch_cons (p q : list EuclideanNode)
      (rest : list (list EuclideanNode)) :
  stitch (p :: q :: rest) = removelast p ++ stitch (q :: rest).
Proof. reflexivity. Qed.

Lemma stitch_length (es : list edge_key) (paths : list (list EuclideanNode)) :
  Forall2 joins es paths -> paths <> [] ->
  (len (stitch paths) + len paths = list_sum (map (@List.length _) paths) + 1)%nat.
Proof.
  induction 1 as [ | uv p es ps Hj Hrest IH]; intros Hne; [ congruence | ].
  destruct ps as [ | q ps].
  - cbn. lia.
  - rewrite stitch_cons, length_app.
    assert (Hp : (len (removelast p) + 1 = len p)%nat).
    { destruct uv as [u v]. rewrite (joins_snoc Hj) at 2.
      rewrite length_app. reflexivity. }
    assert (IH' := IH ltac:(discriminate)).
    unfold list_sum in *. cbn [map fold_right List.length] in *. lia.
Qed.

(** X3.  On a route whose reduced edges all have a stored path that runs
    from the edge's first node to its second, the expanded walk has as
    many nodes as the stored paths together, less one for every junction
    shared by two consecutive paths. *)
Theorem expand_path_node_count (r : ReducedGraph)
        (reduced_path : list EuclideanNode)
        (paths : list (list EuclideanNode)) :
  (2 <= len reduced_path)%nat ->
  stored_paths r reduced_path paths ->
  Forall2 joins (reduced_edges reduced_path) paths ->
  exists walk,
    expand_path r reduced_path = Ok walk
    /\ (len walk + (len paths - 1)
        = list_sum (map (@List.length _) paths))%nat.
Proof.
  intros Hlen Hst Hj.
  destruct reduced_path as [ | u [ | v rest]]; cbn in Hlen; try lia.
  exists (stitch paths). split; [ apply expand_path_stitch; exact Hst | ].
  assert (Hne : paths <> []).
  { rewrite reduced_edges_cons in Hj. inversion Hj. discriminate. }
  pose proof (stitch_length Hj Hne) as H.
  destruct paths as [ | p ps]; [ congruence | ].
  cbn [List.length] in *. lia.
Qed.

Lemma joins_SAB :
  Forall2 joins (reduced_edges [room_S; room_A; room_B])
          [[room_S; hall_J; room_A]; [room_A; hall_K; room_B]].
Proof. repeat constructor. Qed.

Lemma expand_path_node_count_witness :
  exists walk,
    expand_path reduced_SAB [room_S; room_A; room_B] = Ok walk
    /\ (len walk + (2 - 1) = 6)%nat.
Proof.
  apply (@expand_path_node_count reduced_SAB [room_S; room_A; room_B]
           [[room_S; hall_J; room_A]; [room_A; hall_K; room_B]]).
  - cbn. lia.
  - repeat constructor;
      [ exact reduced_SAB_edge_SA | exact reduced_SAB_edge_AB ].
  - exact joins_SAB.
Defined.

(** ** [_path_len] along a path *)

(** In exact arithmetic the weight of the first edge may be added first;
    the source adds it to 0 and the others to the sum, from the left. *)

Lemma path_len_cons2 (g : Graph) (u v : EuclideanNode)
      (rest : list EuclideanNode) :
  _path_len g (u :: v :: rest)
  = (w <- edge_weight g u v ;;
     l <- _path_len g (v :: rest) ;;
     Ok (w + l)).
Proof.
  unfold _path_len.
  change (removelast (u :: v :: rest)) with (u :: removelast (v :: rest)).
  cbn [tl combine mapM].
  destruct (edge_weight g u v) as [w | e]; cbn [bind]; [ | reflexivity ].
  destruct (mapM _ _) as [ws | e]; cbn [bind]; [ | reflexivity ].
  rewrite sum_R_cons. reflexivity.
Qed.

Lemma path_len_single (g : Graph) (u : EuclideanNode) :
  _path_len g [u] = Ok 0.
Proof. reflexivity. Qed.

Lemma Ok_eq (x y : R) : x = y -> @Ok R x = Ok y.
Proof. intros ->. reflexivity. Qed.

Lemma foldM_invariant {A S : Type} (f : S -> A -> result S) (P : S -> Prop)
      (l : list A) :
  (forall s x s', In x l -> P s -> f s x = Ok s' -> P s') ->
  forall s s', P s -> foldM f l s = Ok s' -> P s'.
Proof.
  induction l as [ | x l IH]; intros Hstep s s' Hs Hrun; cbn in Hrun.
  - injection Hrun as <-. exact Hs.
  - destruct (f s x) as [s1 | e] eqn:E1; cbn in Hrun; [ | discriminate ].
    apply IH with (s := s1).
    + intros t y t' Hy. apply Hstep. right. exact Hy.
    + apply (Hstep s x s1); [ left; reflexivity | exact Hs | exact E1 ].
    + exact Hrun.
Qed.

(** ** What the solvers return *)

Lemma reduce_graph_start
      (astar_path :
         Graph -> EuclideanNode -> EuclideanNode -> result (list EuclideanNode))
      (g : EuclideanGraph) (names : list string) (start_name : string)
      (reduced : ReducedGraph) :
  _reduce_graph astar_path g names start_name = Ok reduced ->
  dict_get string_dec (node_dict g) start_name = Some (start reduced).
Proof.
  unfold _reduce_graph, getitem.
  destruct (dict_get string_dec (node_dict g) start_name) as [s | ];
    cbn [bind]; [ | discriminate ].
  intros H. f_equal. symmetry. revert H.
  apply foldM_invariant with (P := fun r => start r = s); [ | reflexivity ].
  intros r [u v] r' _ Hs. unfold reduce_step.
  destruct (getitem string_dec (node_dict g) u); cbn [bind]; [ | discriminate ].
  destruct (getitem string_dec (node_dict g) v); cbn [bind]; [ | discriminate ].
  destruct (astar_path (graph g) a a0); cbn [bind]; [ | discriminate ].
  destruct (_path_len (graph g) a1); cbn [bind]; [ | discriminate ].
  intros [= <-]. exact Hs.
Qed.

Lemma brute_loop_sound (graph : ReducedGraph)
      (perms : list (list EuclideanNode)) :
  forall best res,
    brute_loop graph perms best = Ok res ->
    res = best
    \/ exists p l,
        In p perms /\ res = Some (start graph :: p, l)
        /\ _path_len (rgraph graph) (start graph :: p) = Ok l.
Proof.
  induction perms as [ | p perms IH]; intros best res Hrun; cbn in Hrun.
  - injection Hrun as <-. left. reflexivity.
  - destruct (_path_len (rgraph graph) (start graph :: p)) as [l | e] eqn:El;
      cbn [bind] in Hrun; [ | discriminate ].
    destruct (shorter l best).
    + destruct (IH _ _ Hrun) as [-> | [q [lq [Hq [E Hlq]]]]].
      * right. exists p, l. split; [ left; reflexivity | ]. split; auto.
      * right. exists q, lq. split; [ right; exact Hq | ]. split; auto.
    + destruct (IH _ _ Hrun) as [-> | [q [lq [Hq [E Hlq]]]]].
      * left. reflexivity.
      * right. exists q, lq. split; [ right; exact Hq | ]. split; auto.
Qed.

Lemma greedy_loop_prefix
      (set_difference :
         list EuclideanNode -> list EuclideanNode -> list EuclideanNode)
      (graph : ReducedGraph) (fuel : nat) :
  forall (cur : EuclideanNode) (path visited res : list EuclideanNode),
    greedy_loop set_difference fuel graph cur path visited = Some (Ok res) ->
    exists rest, res = path ++ rest.
Proof.
  induction fuel as [ | fuel IH]; intros cur path visited res H;
    cbn [greedy_loop] in H;
    (destruct (neighbors graph cur) as [nb | e]; [ | discriminate ]);
    destruct (set_difference nb visited) as [ | x U].
  - injection H as <-. exists []. rewrite app_nil_r. reflexivity.
  - discriminate.
  - injection H as <-. exists []. rewrite app_nil_r. reflexivity.
  - destruct (py_min (euclidean_dist_nodes cur) (x :: U)) as [m | e];
      [ | discriminate ].
    destruct (IH _ _ _ _ H) as [rest ->].
    exists (m :: rest). rewrite <- app_assoc. reflexivity.
Qed.

Lemma two_rooms_symmetric (a b : EuclideanNode) :
  edge_weight (graph two_rooms) a b = edge_weight (graph two_rooms) b a.
Proof.
  unfold edge_weight, getitem. cbn [graph two_rooms dict_get].
  destruct (node_eq_dec a room_P) as [-> | NaP];
    destruct (node_eq_dec b room_P) as [-> | NbP]; cbn [bind dict_get];
    node_cases; try reflexivity.
  - destruct (node_eq_dec b room_Q) as [-> | NbQ]; cbn [bind dict_get];
      node_cases; reflexivity.
  - destruct (node_eq_dec a room_Q) as [-> | NaQ]; cbn [bind dict_get];
      node_cases; reflexivity.
  - destruct (node_eq_dec a room_Q) as [-> | NaQ];
      destruct (node_eq_dec b room_Q) as [-> | NbQ]; cbn [bind dict_get];
      node_cases; reflexivity.
Qed.

Lemma direct_astar_joins (g : Graph) (s t : EuclideanNode)
      (p : list EuclideanNode) :
  direct_astar g s t = Ok p -> joins (s, t) p.
Proof. intros [= <-]. split; reflexivity. Qed.

Lemma tsp_two_rooms_brute_force :
  tsp_solver plain_difference direct_astar two_rooms
             ["P"%string; "Q"%string] "P" "brute force"
  = Some (Ok ([room_P; room_Q], sum_R [sum_R [5]])).
Proof.
  unfold tsp_solver. rewrite reduce_two_rooms.
  replace (String.eqb (lower "brute force") "greedy") with false
    by (vm_compute; reflexivity).
  replace (String.eqb (lower "brute force") "brute force") with true
    by (vm_compute; reflexivity).
  rewrite brute_force_two_rooms. cbn [bind].
  rewrite expand_path_two.
  rewrite (getitem_some _ _ _ edge_two_rooms_P_Q). reflexivity.
Qed.

(** ** [tsp_solver] on fewer than two names *)

Lemma combinations2_short {A : Type} (l : list A) :
  (len l <= 1)%nat -> combinations2 l = [].
Proof.
  destruct l as [ | x [ | y l]]; cbn; intros H; [ reflexivity | reflexivity | lia ].
Qed.

Lemma reduce_graph_short
      (astar_path :
         Graph -> EuclideanNode -> EuclideanNode -> result (list EuclideanNode))
      (g : EuclideanGraph) (names : list string) (start_name : string)
      (s : EuclideanNode) :
  dict_get string_dec (node_dict g) start_name = Some s ->
  (len names <= 1)%nat ->
  _reduce_graph astar_path g names start_name = Ok (ReducedGraph_init s).
Proof.
  intros Hs Hlen. unfold _reduce_graph.
  rewrite (getitem_some _ _ _ Hs), (combinations2_short _ Hlen). reflexivity.
Qed.

(** X5.  With fewer than two names to visit no reduced edge is made, and
    the solvers fail on the empty reduced graph: "greedy" raises KeyError
    (the start node has no adjacency to look up) and "brute force" raises
    IndexError (the one-node route cannot be expanded).  No route is
    returned for a single destination. *)
Theorem tsp_solver_single_destination
        (set_difference :
           list EuclideanNode -> list EuclideanNode -> list EuclideanNode)
        (astar_path :
           Graph -> EuclideanNode -> EuclideanNode ->
           result (list EuclideanNode))
        (g : EuclideanGraph) (names : list string)
        (start_name algorithm : string) (s : EuclideanNode) :
  dict_get string_dec (node_dict g) start_name = Some s ->
  (len names <= 1)%nat ->
  (lower algorithm = "greedy"%string ->
   tsp_solver set_difference astar_path g names start_name algorithm
   = Some (Raise KeyError))
  /\ (lower algorithm = "brute force"%string ->
      tsp_solver set_difference astar_path g names start_name algorithm
      = Some (Raise IndexError)).
Proof.
  intros Hs Hlen. unfold tsp_solver.
  rewrite (reduce_graph_short astar_path g names start_name Hs Hlen).
  split; intros ->; reflexivity.
Qed.

Lemma tsp_solver_single_destination_witness :
  (lower "Greedy" = "greedy"%string ->
   tsp_solver plain_difference direct_astar two_rooms ["Q"%string] "Q" "Greedy"
   = Some (Raise KeyError))
  /\ (lower "Greedy" = "brute force"%string ->
      tsp_solver plain_difference direct_astar two_rooms ["Q"%string] "Q"
                 "Greedy"
      = Some (Raise IndexError)).
Proof.
  apply (@tsp_solver_single_destination plain_difference direct_astar
           two_rooms ["Q"%string] "Q"%string "Greedy"%string room_Q).
  - reflexivity.
  - cbn. lia.
Defined.

(** ** [_reduce_graph]: what the reduced graph holds *)

Section CombinationFacts.

Variable A : Type.

Lemma combinations2_In (l : list A) (u v : A) :
  In (u, v) (combinations2 l) -> In u l /\ In v l.
Proof.
  induction l as [ | x l IH]; cbn; [ tauto | ].
  rewrite in_app_iff, in_map_iff. intros [[y [E Hy]] | H].
  - injection E as <- <-. auto.
  - destruct (IH H). auto.
Qed.

(** Two different items of the list are paired, in the order of their
    positions. *)
Lemma combinations2_cover (l : list A) (u v : A) :
  In u l -> In v l -> u <> v ->
  In (u, v) (combinations2 l) \/ In (v, u) (combinations2 l).
Proof.
  induction l as [ | x l IH]; cbn; [ tauto | ].
  intros [-> | Hu] [-> | Hv] Hne.
  - congruence.
  - left. apply in_or_app. left. apply in_map. exact Hv.
  - right. apply in_or_app. left. apply in_map. exact Hu.
  - destruct (IH Hu Hv Hne); [ left | right ]; apply in_or_app; right;
      assumption.
Qed.

(** [q] is neither the pair [p] nor [p] turned round. *)
Definition apart (p q : A * A) : Prop := q <> p /\ q <> (snd p, fst p).

Lemma ForallOrdPairs_app (R : A * A -> A * A -> Prop) (l1 l2 : list (A * A)) :
  ForallOrdPairs R l1 -> ForallOrdPairs R l2 ->
  (forall a b, In a l1 -> In b l2 -> R a b) ->
  ForallOrdPairs R (l1 ++ l2).
Proof.
  induction 1 as [ | a l1 Ha H1 IH]; intros H2 Hcross; [ exact H2 | ].
  cbn [app]. constructor.
  - apply Forall_app. split; [ exact Ha | ].
    apply Forall_forall. intros b Hb. apply Hcross; [ left; reflexivity | exact Hb ].
  - apply IH; [ exact H2 | ]. intros a' b Ha' Hb. apply Hcross; [ right | ]; assumption.
Qed.

Lemma pairs_with_apart (x : A) (l : list A) :
  NoDup l -> ~ In x l -> ForallOrdPairs apart (map (pair x) l).
Proof.
  induction 1 as [ | y l Hy Hnd IH]; intros Hx; cbn [map]; constructor.
  - apply Forall_forall. intros q Hq. apply in_map_iff in Hq.
    destruct Hq as [z [<- Hz]]. split; cbn [fst snd].
    + intros [= ->]. contradiction.
    + intros [= -> _]. apply Hx. left. reflexivity.
  - apply IH. intros H. apply Hx. right. exact H.
Qed.

Lemma combinations2_apart (l : list A) :
  NoDup l ->
  ForallOrdPairs apart (combinations2 l)
  /\ Forall (fun p => fst p <> snd p) (combinations2 l).
Proof.
  induction 1 as [ | x l Hx Hnd [IH1 IH2]]; cbn [combinations2].
  - split; constructor.
  - split.
    + apply ForallOrdPairs_app; [ apply pairs_with_apart; assumption | exact IH1 | ].
      intros a b Ha Hb. apply in_map_iff in Ha. destruct Ha as [y [<- Hy]].
      destruct b as [u v]. apply combinations2_In in Hb. destruct Hb as [Hu Hv].
      split; cbn [fst snd]; intros [= -> ->]; contradiction.
    + apply Forall_app. split; [ | exact IH2 ].
      apply Forall_forall. intros p Hp. apply in_map_iff in Hp.
      destruct Hp as [y [<- Hy]]. cbn [fst snd]. intros ->. contradiction.
Qed.

Lemma foldM_cons {S : Type} (f : S -> A -> result S) (x : A) (l : list A)
      (s s' : S) :
  foldM f (x :: l) s = Ok s' ->
  exists s1, f s x = Ok s1 /\ foldM f l s1 = Ok s'.
Proof.
  cbn [foldM]. destruct (f s x) as [s1 | e]; cbn [bind]; [ | discriminate ].
  intros H. exists s1. split; [ reflexivity | exact H ].
Qed.

Lemma foldM_raises {S : Type} (f : S -> A -> result S) (l : list A) (x : A) :
  In x l -> (forall s, exists e, f s x = Raise e) ->
  forall s, exists e, foldM f l s = Raise e.
Proof.
  intros Hin Hx. induction l as [ | y l IH]; [ destruct Hin | ].
  intros s. cbn [foldM]. destruct Hin as [-> | Hin].
  - destruct (Hx s) as [e ->]. exists e. reflexivity.
  - destruct (f s y) as [s1 | e]; cbn [bind]; [ apply IH, Hin | ].
    exists e. reflexivity.
Qed.

End CombinationFacts.

Section ReduceContents.

Variable astar_path :
  Graph -> EuclideanNode -> EuclideanNode -> result (list EuclideanNode).

Variable g : EuclideanGraph.

(** What the reduced graph [r] holds for the names [u] and [v]: the path
    the search found between their nodes, stored in both directions, and
    the path's length in the base graph as the weight of the edge. *)
Definition reduced_pair (r : ReducedGraph) (u v : string) : Prop :=
  exists source target path d,
    dict_get string_dec (node_dict g) u = Some source
    /\ dict_get string_dec (node_dict g) v = Some target
    /\ astar_path (graph g) source target = Ok path
    /\ _path_len (graph g) path = Ok d
    /\ dict_get edge_key_eq_dec (edge_dict r) (source, target) = Some path
    /\ dict_get edge_key_eq_dec (edge_dict r) (target, source)
       = Some (rev path)
    /\ edge_weight (rgraph r) source target = Ok d
    /\ edge_weight (rgraph r) target source = Ok d.

Lemma reduce_step_inv (r r' : ReducedGraph) (u v : string) :
  reduce_step astar_path g r (u, v) = Ok r' ->
  exists source target path d,
    dict_get string_dec (node_dict g) u = Some source
    /\ dict_get string_dec (node_dict g) v = Some target
    /\ astar_path (graph g) source target = Ok path
    /\ _path_len (graph g) path = Ok d
    /\ r' = add_reduced_edge r source target path d.
Proof.
  unfold reduce_step, getitem.
  destruct (dict_get string_dec (node_dict g) u) as [s | ]; cbn [bind];
    [ | discriminate ].
  destruct (dict_get string_dec (node_dict g) v) as [t | ]; cbn [bind];
    [ | discriminate ].
  destruct (astar_path (graph g) s t) as [p | e] eqn:Ep; cbn [bind];
    [ | discriminate ].
  destruct (_path_len (graph g) p) as [d | e] eqn:Ed; cbn [bind];
    [ | discriminate ].
  intros [= <-]. exists s, t, p, d. repeat split; assumption.
Qed.

(** The name under which a node is filed is the node's name, as in a
    [node_dict] read from a csv file. *)
Hypothesis names_agree :
  forall n node,
    dict_get string_dec (node_dict g) n = Some node -> name node = n.

Definition same_at (r0 r : ReducedGraph) (x y : EuclideanNode) : Prop :=
  dict_get edge_key_eq_dec (edge_dict r) (x, y)
  = dict_get edge_key_eq_dec (edge_dict r0) (x, y)
  /\ edge_weight (rgraph r) x y = edge_weight (rgraph r0) x y.

Lemma foldM_reduce_frame (ps : list (string * string))
      (r0 r : ReducedGraph) (x y : EuclideanNode) :
  foldM (reduce_step astar_path g) ps r0 = Ok r ->
  (forall u v, In (u, v) ps ->
               (name x, name y) <> (u, v) /\ (name x, name y) <> (v, u)) ->
  same_at r0 r x y.
Proof.
  intros Hrun Hfresh. revert Hrun.
  apply foldM_invariant with (P := fun r => same_at r0 r x y);
    [ | split; reflexivity ].
  intros r1 [u v] r2 Hin [Hd Hw] Hstep.
  apply reduce_step_inv in Hstep.
  destruct Hstep as [s [t [p [d [Hs [Ht [_ [_ ->]]]]]]]].
  apply names_agree in Hs. apply names_agree in Ht.
  destruct (Hfresh u v Hin) as [N1 N2].
  destruct (add_reduced_edge_lookup r1 s t p d)
    as [_ [_ [Hother [_ [_ Hwo]]]]].
  split.
  - rewrite Hother; [ exact Hd | | ]; intros [= -> ->]; congruence.
  - rewrite Hwo; [ exact Hw | | ]; intros [= -> ->]; congruence.
Qed.

Lemma foldM_reduce_pairs (ps : list (string * string)) :
  ForallOrdPairs (@apart string) ps ->
  Forall (fun p => fst p <> snd p) ps ->
  forall r0 r,
    foldM (reduce_step astar_path g) ps r0 = Ok r ->
    forall u v, In (u, v) ps -> reduced_pair r u v.
Proof.
  induction 1 as [ | [u0 v0] ps Hp Hps IH]; intros Hne r0 r Hrun u v Hin;
    [ destruct Hin | ].
  apply foldM_cons in Hrun. destruct Hrun as [r1 [Hstep Hrest]].
  inversion Hne as [ | p0 ps0 Hne0 Hne']; subst.
  destruct Hin as [[= -> ->] | Hin]; [ | apply (IH Hne' r1 r Hrest u v Hin) ].
  apply reduce_step_inv in Hstep.
  destruct Hstep as [s [t [p [d [Hs [Ht [Hp' [Hd ->]]]]]]]].
  pose proof (names_agree _ Hs) as Ns. pose proof (names_agree _ Ht) as Nt.
  cbn [fst snd] in Hne0.
  assert (Hst : s <> t) by (intros ->; congruence).
  destruct (add_reduced_edge_lookup r0 s t p d)
    as [Hts [Hst' [_ [Hw [Hwb _]]]]].
  assert (Hfresh : forall a b x y,
             (a = s /\ b = t) \/ (a = t /\ b = s) ->
             In (x, y) ps ->
             (name a, name b) <> (x, y) /\ (name a, name b) <> (y, x)).
  { intros a b x y Hab Hxy.
    rewrite Forall_forall in Hp. destruct (Hp _ Hxy) as [Q1 Q2].
    cbn [fst snd] in Q2.
    destruct Hab as [[-> ->] | [-> ->]]; rewrite Ns, Nt;
      split; intros [= -> ->]; congruence. }
  destruct (@foldM_reduce_frame ps _ r s t Hrest) as [Fd1 Fw1].
  { intros x y. apply Hfresh. left. split; reflexivity. }
  destruct (@foldM_reduce_frame ps _ r t s Hrest) as [Fd2 Fw2].
  { intros x y. apply Hfresh. right. split; reflexivity. }
  exists s, t, p, d.
  rewrite Fd1, Fd2, Fw1, Fw2.
  repeat split; auto.
Qed.

Lemma reduce_graph_pairs_hold (names : list string) (start_name : string)
      (reduced : ReducedGraph) :
  NoDup names ->
  _reduce_graph astar_path g names start_name = Ok reduced ->
  forall u v, In (u, v) (combinations2 names) -> reduced_pair reduced u v.
Proof.
  intros Hnd Hrun. unfold _reduce_graph in Hrun.
  destruct (getitem string_dec (node_dict g) start_name) as [s | e];
    cbn [bind] in Hrun; [ | discriminate ].
  destruct (combinations2_apart Hnd) as [H1 H2].
  apply (foldM_reduce_pairs H1 H2 _ Hrun).
Qed.

(** The nodes of the reduced graph are nodes of the names to visit. *)
Lemma reduce_graph_nodes (names : list string) (start_name : string)
      (reduced : ReducedGraph) :
  _reduce_graph astar_path g names start_name = Ok reduced ->
  forall x, In x (nodes (rgraph reduced)) -> In (name x) names.
Proof.
  unfold _reduce_graph.
  destruct (getitem string_dec (node_dict g) start_name) as [s | e];
    cbn [bind]; [ | discriminate ].
  intros Hrun.
  eapply foldM_invariant
    with (P := fun r => forall x, In x (nodes (rgraph r)) -> In (name x) names);
    [ | | exact Hrun ].
  - intros r [u v] r' Hin Hr Hstep x.
    apply combinations2_In in Hin. destruct Hin as [Hu Hv].
    apply reduce_step_inv in Hstep.
    destruct Hstep as [s' [t [p [d [Hs [Ht [_ [_ ->]]]]]]]].
    unfold add_reduced_edge. cbn [rgraph]. rewrite In_nodes_add_edge.
    apply names_agree in Hs. apply names_agree in Ht.
    intros [H | [-> | ->]]; [ apply Hr, H | congruence | congruence ].
  - intros x [].
Qed.

End ReduceContents.

(** X6.  For names without repetition, each filed under its own name in
    [node_dict], a reduced graph returned by [_reduce_graph] has, for every
    two different names to visit, the path found by the search between
    their nodes (from one of the two to the other), stored in both
    directions, and an edge between them that weighs the path's length in
    the base graph.  Its [start] is [node_dict[start]], and its nodes are
    nodes of the names to visit only: the start node is not among them
    unless its name is. *)
Theorem reduce_graph_stores_every_pair
        (astar_path :
           Graph -> EuclideanNode -> EuclideanNode ->
           result (list EuclideanNode))
        (g : EuclideanGraph) (names : list string) (start_name : string)
        (reduced : ReducedGraph) :
  NoDup names ->
  (forall n node,
      dict_get string_dec (node_dict g) n = Some node -> name node = n) ->
  _reduce_graph astar_path g names start_name = Ok reduced ->
  dict_get string_dec (node_dict g) start_name = Some (start reduced)
  /\ (forall u v,
         In u names -> In v names -> u <> v ->
         reduced_pair astar_path g reduced u v
         \/ reduced_pair astar_path g reduced v u)
  /\ (forall x, In x (nodes (rgraph reduced)) -> In (name x) names).
Proof.
  intros Hnd Hnames Hrun.
  split; [ apply reduce_graph_start with (1 := Hrun) | ].
  split; [ | apply (@reduce_graph_nodes astar_path g Hnames names start_name
                      reduced Hrun) ].
  intros u v Hu Hv Hne.
  destruct (combinations2_cover names Hu Hv Hne) as [H | H]; [ left | right ];
    apply (@reduce_graph_pairs_hold astar_path g Hnames names start_name
             reduced Hnd Hrun _ _ H).
Qed.

Lemma two_rooms_names (n : string) (node : EuclideanNode) :
  dict_get string_dec (node_dict two_rooms) n = Some node -> name node = n.
Proof.
  cbn [node_dict two_rooms dict_get].
  destruct (string_dec n "P") as [-> | _]; [ intros [= <-]; reflexivity | ].
  destruct (string_dec n "Q") as [-> | _]; [ intros [= <-]; reflexivity | ].
  discriminate.
Qed.

Lemma NoDup_P_Q : NoDup ["P"%string; "Q"%string].
Proof.
  constructor; [ intros [H | []]; discriminate | ].
  constructor; [ intros [] | constructor ].
Qed.

Lemma reduce_graph_stores_every_pair_witness :
  dict_get string_dec (node_dict two_rooms) "P"%string
  = Some (start reduced_two_rooms)
  /\ (forall u v,
         In u ["P"%string; "Q"%string] -> In v ["P"%string; "Q"%string] ->
         u <> v ->
         reduced_pair direct_astar two_rooms reduced_two_rooms u v
         \/ reduced_pair direct_astar two_rooms reduced_two_rooms v u)
  /\ (forall x,
         In x (nodes (rgraph reduced_two_rooms)) ->
         In (name x) ["P"%string; "Q"%string]).
Proof.
  apply (@reduce_graph_stores_every_pair direct_astar two_rooms
           ["P"%string; "Q"%string] "P"%string reduced_two_rooms).
  - exact NoDup_P_Q.
  - exact two_rooms_names.
  - exact reduce_two_rooms.
Defined.

Lemma combinations2_mentions {A : Type} (l : list A) (n : A) :
  In n l -> (2 <= len l)%nat ->
  exists m, In (n, m) (combinations2 l) \/ In (m, n) (combinations2 l).
Proof.
  induction l as [ | x l IH]; [ intros [] | ].
  intros Hin Hlen. destruct l as [ | y l]; [ cbn in Hlen; lia | ].
  destruct Hin as [-> | Hin].
  - exists y. left. cbn. left. reflexivity.
  - exists x. right. cbn [combinations2]. apply in_or_app. left.
    apply in_map. exact Hin.
Qed.

(** X7.  The names are looked up in [node_dict] as they are: an unknown
    start name raises KeyError; with two or more names to visit, an
    unknown name among them makes [_reduce_graph] raise, so that no
    reduced graph lacks a requested node silently.  A single name to visit
    is never looked up. *)
Theorem reduce_graph_unknown_name
        (astar_path :
           Graph -> EuclideanNode -> EuclideanNode ->
           result (list EuclideanNode))
        (g : EuclideanGraph) (names : list string) (start_name : string) :
  (dict_get string_dec (node_dict g) start_name = None ->
   _reduce_graph astar_path g names start_name = Raise KeyError)
  /\ (forall n,
         In n names -> (2 <= len names)%nat ->
         dict_get string_dec (node_dict g) n = None ->
         exists e, _reduce_graph astar_path g names start_name = Raise e)
  /\ (forall s,
         (len names <= 1)%nat ->
         dict_get string_dec (node_dict g) start_name = Some s ->
         _reduce_graph astar_path g names start_name
         = Ok (ReducedGraph_init s)).
Proof.
  split; [ | split ].
  - intros H. unfold _reduce_graph, getitem. rewrite H. reflexivity.
  - intros n Hin Hlen Hn. unfold _reduce_graph.
    destruct (getitem string_dec (node_dict g) start_name) as [s | e];
      cbn [bind]; [ | exists e; reflexivity ].
    destruct (combinations2_mentions names n Hin Hlen) as [m [H | H]].
    + apply foldM_raises with (x := (n, m)); [ exact H | ].
      intros r. exists KeyError. unfold reduce_step, getitem.
      rewrite Hn. reflexivity.
    + apply foldM_raises with (x := (m, n)); [ exact H | ].
      intros r. exists KeyError. unfold reduce_step, getitem. rewrite Hn.
      destruct (dict_get string_dec (node_dict g) m); reflexivity.
  - intros s Hlen Hs. apply reduce_graph_short; assumption.
Qed.

(** ** A start that is not one of the names to visit *)

Lemma reduce_graph_nonempty
      (astar_path :
         Graph -> EuclideanNode -> EuclideanNode -> result (list EuclideanNode))
      (g : EuclideanGraph) (names : list string) (start_name : string)
      (reduced : ReducedGraph) :
  (2 <= len names)%nat ->
  _reduce_graph astar_path g names start_name = Ok reduced ->
  nodes (rgraph reduced) <> [].
Proof.
  intros Hlen. unfold _reduce_graph.
  destruct (getitem string_dec (node_dict g) start_name) as [s | e];
    cbn [bind]; [ | discriminate ].
  destruct (combinations2 names) as [ | [u v] ps] eqn:Ec.
  { destruct names as [ | x [ | y l]]; cbn in Hlen, Ec; try lia. discriminate. }
  intros Hrun. apply foldM_cons in Hrun. destruct Hrun as [r1 [Hstep Hrest]].
  eapply foldM_invariant with (P := fun r => nodes (rgraph r) <> []);
    [ | | exact Hrest ].
  - intros r [a b] r' _ _ H. apply reduce_step_inv in H.
    destruct H as [s' [t [p [d [_ [_ [_ [_ ->]]]]]]]].
    unfold add_reduced_edge. cbn [rgraph]. intros E.
    assert (Hin : In s' (nodes (add_edge (rgraph r) s' t d)))
      by (apply In_nodes_add_edge; auto).
    rewrite E in Hin. destruct Hin.
  - apply reduce_step_inv in Hstep.
    destruct Hstep as [s' [t [p [d [_ [_ [_ [_ ->]]]]]]]].
    unfold add_reduced_edge. cbn [rgraph]. intros E.
    assert (Hin : In s' (nodes (add_edge (rgraph (ReducedGraph_init s)) s' t d)))
      by (apply In_nodes_add_edge; auto).
    rewrite E in Hin. destruct Hin.
Qed.

Lemma greedy_start_missing
      (set_difference :
         list EuclideanNode -> list EuclideanNode -> list EuclideanNode)
      (graph : ReducedGraph) :
  ~ In (start graph) (nodes (rgraph graph)) ->
  _greedy set_difference graph = Some (Raise KeyError).
Proof.
  intros Hs. unfold nodes in Hs. rewrite <- (dict_get_keys node_eq_dec) in Hs.
  assert (Hnb : neighbors graph (start graph) = Raise KeyError).
  { unfold neighbors, getitem.
    destruct (dict_get node_eq_dec (rgraph graph) (start graph));
      [ exfalso; apply Hs; discriminate | reflexivity ]. }
  unfold _greedy.
  destruct (len (nodes (rgraph graph))); cbn [greedy_loop]; rewrite Hnb;
    reflexivity.
Qed.

Lemma brute_force_start_missing (graph : ReducedGraph) :
  ~ In (start graph) (nodes (rgraph graph)) ->
  nodes (rgraph graph) <> [] ->
  _brute_force graph = Raise KeyError.
Proof.
  intros Hs Hne. unfold _brute_force. fold (others graph).
  assert (Ho : others graph <> []).
  { destruct (nodes (rgraph graph)) as [ | x l] eqn:E; [ congruence | ].
    intros Ho.
    assert (Hx : In x (others graph)).
    { apply others_In. rewrite E. split; [ left; reflexivity | ].
      intros ->. apply Hs. left. reflexivity. }
    rewrite Ho in Hx. destruct Hx. }
  destruct (permutations (others graph)) as [ | p ps] eqn:Ep.
  { assert (H : In (others graph) (permutations (others graph)))
      by (apply permutations_In; reflexivity).
    rewrite Ep in H. destruct H. }
  assert (Hp : Permutation (others graph) p).
  { apply permutations_In. rewrite Ep. left. reflexivity. }
  destruct p as [ | x p].
  { apply Permutation_sym, Permutation_nil in Hp. contradiction. }
  cbn [brute_loop]. rewrite path_len_cons2.
  unfold nodes in Hs. rewrite <- (dict_get_keys node_eq_dec) in Hs.
  unfold edge_weight at 1, getitem.
  destruct (dict_get node_eq_dec (rgraph graph) (start graph));
    [ exfalso; apply Hs; discriminate | reflexivity ].
Qed.

(** X8.  When every node is filed in [node_dict] under its own name, the
    start node is a field of the reduced graph and never one of its nodes
    unless its name is among the names to visit.  With two or more names
    to visit that do not include [start], both solvers raise KeyError on
    the reduced graph: a tour cannot begin at a node that is not itself a
    destination. *)
Theorem tsp_solver_start_must_be_visited
        (set_difference :
           list EuclideanNode -> list EuclideanNode -> list EuclideanNode)
        (astar_path :
           Graph -> EuclideanNode -> EuclideanNode ->
           result (list EuclideanNode))
        (g : EuclideanGraph) (names : list string)
        (start_name algorithm : string) (reduced : ReducedGraph) :
  (forall n node,
      dict_get string_dec (node_dict g) n = Some node -> name node = n) ->
  ~ In start_name names ->
  (2 <= len names)%nat ->
  _reduce_graph astar_path g names start_name = Ok reduced ->
  lower algorithm = "greedy"%string \/ lower algorithm = "brute force"%string ->
  ~ In (start reduced) (nodes (rgraph reduced))
  /\ tsp_solver set_difference astar_path g names start_name algorithm
     = Some (Raise KeyError).
Proof.
  intros Hnames Hstart Hlen Hrun Halg.
  assert (Hs : ~ In (start reduced) (nodes (rgraph reduced))).
  { intros Hin.
    apply (@reduce_graph_nodes astar_path g Hnames names start_name
             reduced Hrun) in Hin.
    rewrite (Hnames _ _ (reduce_graph_start _ _ _ _ Hrun)) in Hin.
    contradiction. }
  split; [ exact Hs | ].
  unfold tsp_solver. rewrite Hrun. destruct Halg as [-> | ->].
  - cbn [String.eqb Ascii.eqb Bool.eqb].
    rewrite (@greedy_start_missing set_difference reduced Hs). reflexivity.
  - cbn [String.eqb Ascii.eqb Bool.eqb].
    rewrite (@brute_force_start_missing reduced Hs
               (@reduce_graph_nonempty astar_path g names start_name reduced
                                       Hlen Hrun)).
    reflexivity.
Qed.

(** The two rooms, and a third name that is filed but not visited. *)
Definition two_rooms_and_S : EuclideanGraph :=
  mkEuclideanGraph (graph two_rooms)
                   [("P"%string, room_P); ("Q"%string, room_Q);
                    ("S"%string, room_S)].

Definition reduced_from_S : ReducedGraph :=
  add_reduced_edge (ReducedGraph_init room_S) room_P room_Q
                   [room_P; room_Q] (sum_R [5]).

Lemma reduce_from_S :
  _reduce_graph direct_astar two_rooms_and_S ["P"%string; "Q"%string] "S"
  = Ok reduced_from_S.
Proof.
  unfold _reduce_graph, reduce_step, getitem, direct_astar, _path_len.
  cbn [combinations2 map app foldM node_dict two_rooms_and_S two_rooms graph
       dict_get string_dec bind removelast tl combine mapM].
  cbn. weight_eval. reflexivity.
Qed.

Lemma two_rooms_and_S_names (n : string) (node : EuclideanNode) :
  dict_get string_dec (node_dict two_rooms_and_S) n = Some node ->
  name node = n.
Proof.
  cbn [node_dict two_rooms_and_S dict_get].
  destruct (string_dec n "P") as [-> | _]; [ intros [= <-]; reflexivity | ].
  destruct (string_dec n "Q") as [-> | _]; [ intros [= <-]; reflexivity | ].
  destruct (string_dec n "S") as [-> | _]; [ intros [= <-]; reflexivity | ].
  discriminate.
Qed.

Lemma tsp_solver_start_must_be_visited_witness :
  ~ In (start reduced_from_S) (nodes (rgraph reduced_from_S))
  /\ tsp_solver plain_difference direct_astar two_rooms_and_S
                ["P"%string; "Q"%string] "S" "greedy"
     = Some (Raise KeyError).
Proof.
  apply (@tsp_solver_start_must_be_visited plain_difference direct_astar
           two_rooms_and_S ["P"%string; "Q"%string] "S"%string
           "greedy"%string reduced_from_S).
  - exact two_rooms_and_S_names.
  - intros [H | [H | []]]; discriminate.
  - cbn. lia.
  - exact reduce_from_S.
  - left. reflexivity.
Defined.

(** ** Graph reduction over a search for shortest paths *)














(** ** Termination of the greedy loop *)

(** Every neighbour listed in the graph is a node of the graph, as in any
    graph built by [add_edge]. *)
Definition closed (g : Graph) : Prop :=
  forall u nb v,
    dict_get node_eq_dec g u = Some nb -> In v (map fst nb) ->
    In v (nodes g).

Lemma In_keys_setitem {V : Type} (d : list (EuclideanNode * V))
      (k y : EuclideanNode) (v : V) :
  In y (map fst (setitem node_eq_dec d k v)) <-> In y (map fst d) \/ y = k.
Proof.
  rewrite <- !(dict_get_keys node_eq_dec).
  destruct (node_eq_dec k y) as [-> | N].
  - rewrite dict_get_setitem_eq. split; [ auto | discriminate ].
  - rewrite dict_get_setitem_neq by exact N.
    split; [ auto | intros [H | H]; [ exact H | congruence ] ].
Qed.

Lemma nbrs_closed (g : Graph) (x y : EuclideanNode) :
  closed g -> In y (map fst (nbrs g x)) -> In y (nodes g).
Proof.
  intros Hc. unfold nbrs.
  destruct (dict_get node_eq_dec g x) as [nb | ] eqn:E; [ | intros [] ].
  apply (Hc x nb y E).
Qed.

Lemma closed_add_edge (g : Graph) (u v : EuclideanNode) (w : R) :
  closed g -> closed (add_edge g u v w).
Proof.
  intros Hc x nb y Hx Hy. rewrite In_nodes_add_edge.
  rewrite dict_get_add_edge in Hx.
  destruct (node_eq_dec x v) as [-> | Nxv].
  - injection Hx as <-. apply In_keys_setitem in Hy.
    destruct Hy as [Hy | ->]; [ | auto ].
    destruct (node_eq_dec v u) as [-> | Nvu].
    + apply In_keys_setitem in Hy. destruct Hy as [Hy | ->]; [ | auto ].
      left. eapply nbrs_closed; eassumption.
    + left. eapply nbrs_closed; eassumption.
  - destruct (node_eq_dec x u) as [-> | Nxu].
    + injection Hx as <-. apply In_keys_setitem in Hy.
      destruct Hy as [Hy | ->]; [ | auto ].
      left. eapply nbrs_closed; eassumption.
    + left. apply (Hc x nb y Hx Hy).
Qed.

Lemma reduce_graph_closed
      (astar_path :
         Graph -> EuclideanNode -> EuclideanNode -> result (list EuclideanNode))
      (g : EuclideanGraph) (names : list string) (start_name : string)
      (reduced : ReducedGraph) :
  _reduce_graph astar_path g names start_name = Ok reduced ->
  closed (rgraph reduced).
Proof.
  unfold _reduce_graph.
  destruct (getitem string_dec (node_dict g) start_name) as [s | e];
    cbn [bind]; [ | discriminate ].
  intros Hrun.
  eapply foldM_invariant with (P := fun r => closed (rgraph r));
    [ | | exact Hrun ].
  - intros r [u v] r' _ Hr Hstep. apply reduce_step_inv in Hstep.
    destruct Hstep as [s' [t [p [d [_ [_ [_ [_ ->]]]]]]]].
    unfold add_reduced_edge. cbn [rgraph]. apply closed_add_edge, Hr.
  - intros u nb v H. discriminate.
Qed.

Lemma min_loop_In {A : Type} (key : A -> result R) (l : list A) :
  forall best bk m, min_loop key best bk l = Ok m -> m = best \/ In m l.
Proof.
  induction l as [ | x l IH]; intros best bk m H; cbn in H.
  - injection H as <-. left. reflexivity.
  - destruct (key x) as [k | e]; cbn [bind] in H; [ | discriminate ].
    destruct (Rlt_dec k bk).
    + destruct (IH _ _ _ H) as [-> | Hin]; right; [ left | right ]; auto.
    + destruct (IH _ _ _ H) as [-> | Hin]; [ left | right; right ]; auto.
Qed.

Lemma py_min_In {A : Type} (key : A -> result R) (l : list A) (m : A) :
  py_min key l = Ok m -> In m l.
Proof.
  destruct l as [ | x l]; cbn; [ discriminate | ].
  destruct (key x) as [k | e]; cbn [bind]; [ | discriminate ].
  intros H. apply min_loop_In in H. destruct H as [-> | H]; [ left | right ]; auto.
Qed.

Lemma mem_cons (n m : EuclideanNode) (visited : list EuclideanNode) :
  mem n (m :: visited) = node_eqb n m || mem n visited.
Proof. reflexivity. Qed.

Lemma unvisited_le (l visited : list EuclideanNode) (m : EuclideanNode) :
  (len (unvisited_of l (m :: visited)) <= len (unvisited_of l visited))%nat.
Proof.
  induction l as [ | x l IH]; [ reflexivity | ].
  unfold unvisited_of in *. cbn [filter]. rewrite mem_cons.
  destruct (node_eqb x m); cbn [orb negb];
    destruct (negb (mem x visited)); cbn [List.length]; lia.
Qed.

Lemma unvisited_shrinks (l visited : list EuclideanNode) (m : EuclideanNode) :
  In m l -> ~ In m visited ->
  (len (unvisited_of l (m :: visited)) < len (unvisited_of l visited))%nat.
Proof.
  intros Hin Hnv. induction l as [ | x l IH]; [ destruct Hin | ].
  pose proof (unvisited_le l visited m) as Hle.
  unfold unvisited_of in *. cbn [filter]. rewrite mem_cons.
  destruct (node_eq_dec x m) as [-> | N].
  - unfold node_eqb at 1. rewrite node_eq_dec_same. cbn [orb negb].
    assert (Hm : mem m visited = false).
    { destruct (mem m visited) eqn:E; [ | reflexivity ].
      exfalso. apply Hnv. apply mem_In. exact E. }
    rewrite Hm. cbn [negb List.length]. lia.
  - destruct Hin as [E | Hin]; [ congruence | ].
    specialize (IH Hin). unfold node_eqb at 1.
    rewrite node_eq_dec_diff by exact N. cbn [orb].
    destruct (negb (mem x visited)); cbn [List.length]; lia.
Qed.

Section Termination.

Variable set_difference :
  list EuclideanNode -> list EuclideanNode -> list EuclideanNode.

Hypothesis set_difference_perm :
  forall s visited,
    Permutation (set_difference s visited) (unvisited_of s visited).

Lemma greedy_loop_terminates (graph : ReducedGraph) :
  closed (rgraph graph) ->
  forall (fuel : nat) (cur : EuclideanNode)
         (path visited : list EuclideanNode),
    (len (unvisited_of (nodes (rgraph graph)) visited) <= fuel)%nat ->
    exists r, greedy_loop set_difference fuel graph cur path visited = Some r.
Proof.
  intros Hc. induction fuel as [ | fuel IH]; intros cur path visited Hfuel;
    cbn [greedy_loop];
    (destruct (neighbors graph cur) as [nb | e] eqn:Enb;
     [ | eexists; reflexivity ]);
    (destruct (set_difference nb visited) as [ | x U] eqn:EU;
     [ eexists; reflexivity | ]);
    assert (HU : forall y, In y (x :: U) ->
               In y (nodes (rgraph graph)) /\ ~ In y visited)
      by (intros y Hy; rewrite <- EU in Hy;
          apply (Permutation_in _ (set_difference_perm nb visited)) in Hy;
          apply unvisited_of_In in Hy; destruct Hy as [Hy Hnv];
          split; [ | exact Hnv ];
          unfold neighbors, getitem in Enb;
          destruct (dict_get node_eq_dec (rgraph graph) cur) as [adj | ] eqn:Ea;
          cbn [bind] in Enb; [ | discriminate ];
          injection Enb as <-; apply (Hc cur adj y Ea Hy)).
  - exfalso. destruct (HU x (or_introl eq_refl)) as [Hx Hnv].
    assert (Hin : In x (unvisited_of (nodes (rgraph graph)) visited))
      by (apply unvisited_of_In; split; assumption).
    destruct (unvisited_of (nodes (rgraph graph)) visited);
      [ destruct Hin | cbn in Hfuel; lia ].
  - destruct (py_min (euclidean_dist_nodes cur) (x :: U)) as [m | e] eqn:Em;
      [ | eexists; reflexivity ].
    apply py_min_In in Em. destruct (HU m Em) as [Hm Hnv].
    apply IH. pose proof (@unvisited_shrinks _ visited m Hm Hnv). lia.
Qed.

Lemma greedy_terminates (graph : ReducedGraph) :
  closed (rgraph graph) ->
  exists r, _greedy set_difference graph = Some r.
Proof.
  intros Hc. unfold _greedy.
  destruct (@greedy_loop_terminates graph Hc (len (nodes (rgraph graph)))
              (start graph) [start graph] [start graph]) as [r ->].
  - unfold unvisited_of. apply filter_length_le.
  - eexists. reflexivity.
Qed.

End Termination.

(** X9.  Whatever the order in which a set difference is iterated, the
    loop of [_greedy] ends after at most one round per node on every graph
    whose neighbours are nodes of the graph, and [tsp_solver] ends, with a
    result or an exception, on every input. *)
Theorem tsp_solver_terminates
        (set_difference :
           list EuclideanNode -> list EuclideanNode -> list EuclideanNode) :
  (forall s visited,
      Permutation (set_difference s visited) (unvisited_of s visited)) ->
  (forall graph,
      closed (rgraph graph) ->
      exists r, _greedy set_difference graph = Some r)
  /\ (forall astar_path g names start_name algorithm,
         exists r,
           tsp_solver set_difference astar_path g names start_name algorithm
           = Some r).
Proof.
  intros Hsd. split.
  - intros graph Hc. apply greedy_terminates; assumption.
  - intros astar_path g names start_name algorithm. unfold tsp_solver.
    destruct (_reduce_graph astar_path g names start_name)
      as [reduced | e] eqn:Ered; [ | eexists; reflexivity ].
    destruct (String.eqb (lower algorithm) "greedy").
    + destruct (@greedy_terminates set_difference Hsd reduced
                  (@reduce_graph_closed astar_path g names start_name
                                        reduced Ered)) as [r ->].
      eexists. reflexivity.
    + destruct (String.eqb (lower algorithm) "brute force");
        eexists; reflexivity.
Qed.

Lemma tsp_solver_terminates_witness :
  (forall graph,
      closed (rgraph graph) ->
      exists r, _greedy plain_difference graph = Some r)
  /\ (forall astar_path g names start_name algorithm,
         exists r,
           tsp_solver plain_difference astar_path g names start_name algorithm
           = Some r).
Proof.
  apply (@tsp_solver_terminates plain_difference).
  exact plain_difference_perm.
Defined.

(** ** [naive_knn]: the nearest connectors *)










(** ** Connectivity repair: one classroom *)











Section RepairFacts.

Variable nearest_on_segment : R * R -> R * R -> R * R -> R * R.




End RepairFacts.








(** ** Connectivity repair: every classroom *)




Section ConnectAll.

Variable nearest_on_segment : R * R -> R * R -> R * R -> R * R.


End ConnectAll.




(** ** [_path_len] *)

Lemma edge_weight_error (g : Graph) (u v : EuclideanNode) (e : exn) :
  edge_weight g u v = Raise e -> e = KeyError.
Proof.
  unfold edge_weight, getitem.
  destruct (dict_get node_eq_dec g u) as [nb | ]; cbn [bind];
    [ | intros [= <-]; reflexivity ].
  destruct (dict_get node_eq_dec nb v); cbn [bind];
    [ discriminate | intros [= <-]; reflexivity ].
Qed.

Lemma mapM_error {A B : Type} (f : A -> result B) (l : list A) (E e : exn) :
  (forall x e', f x = Raise e' -> e' = E) ->
  mapM f l = Raise e -> e = E.
Proof.
  intros Hf. induction l as [ | x l IH]; cbn; [ discriminate | ].
  destruct (f x) as [y | e'] eqn:Ex; cbn [bind].
  - destruct (mapM f l) as [ys | e'']; cbn [bind]; [ discriminate | ].
    intros [= <-]. apply IH. reflexivity.
  - intros [= <-]. apply (Hf x e' Ex).
Qed.

Lemma mapM_raises {A B : Type} (f : A -> result B) (l : list A) (x : A)
      (E : exn) :
  (forall y e, f y = Raise e -> e = E) ->
  In x l -> f x = Raise E -> mapM f l = Raise E.
Proof.
  intros Hf Hin Hx. induction l as [ | y l IH]; [ destruct Hin | ].
  cbn [mapM]. destruct (f y) as [b | e] eqn:Ey; cbn [bind].
  - destruct Hin as [-> | Hin]; [ congruence | ].
    rewrite (IH Hin). reflexivity.
  - rewrite (Hf y e Ey). reflexivity.
Qed.

Lemma path_len_error (g : Graph) (p : list EuclideanNode) (e : exn) :
  _path_len g p = Raise e -> e = KeyError.
Proof.
  unfold _path_len.
  destruct (mapM _ _) as [ws | e'] eqn:E; cbn [bind]; [ discriminate | ].
  intros [= <-]. apply mapM_error with (E := KeyError) in E; [ exact E | ].
  intros [u v] e''. apply edge_weight_error.
Qed.

Lemma path_len_missing (g : Graph) (p : list EuclideanNode)
      (u v : EuclideanNode) :
  In (u, v) (reduced_edges p) ->
  edge_weight g u v = Raise KeyError ->
  _path_len g p = Raise KeyError.
Proof.
  intros Hin Hw. unfold _path_len.
  rewrite (@mapM_raises _ _ (fun '(u, v) => edge_weight g u v)
             (combine (removelast p) (tl p)) (u, v) KeyError).
  - reflexivity.
  - intros [a b] e. apply edge_weight_error.
  - exact Hin.
  - exact Hw.
Qed.

Lemma weights_along_snoc (g : Graph) (u v : EuclideanNode) (w : R) :
  weight_of g u v w ->
  forall (a : list EuclideanNode) (ws : list R),
    weights_along g (a ++ [u]) ws ->
    weights_along g (a ++ [u; v]) (ws ++ [w]).
Proof.
  intros Hw. induction a as [ | x a IH]; intros ws H.
  - cbn [app] in *. inversion H; subst. cbn [app].
    constructor; [ exact Hw | constructor ].
  - destruct a as [ | y a]; cbn [app] in *;
      inversion H as [ | | x' y' rest' w0 ws0 Hw0 Hrest]; subst;
      cbn [app]; (constructor; [ exact Hw0 | ]); apply IH; exact Hrest.
Qed.

Lemma route_weight_snoc (ws : list R) (w : R) :
  route_weight (ws ++ [w]) = route_weight ws + w.
Proof. unfold route_weight. rewrite fold_left_app. reflexivity. Qed.

Lemma path_len_absent (g : Graph) (p : list EuclideanNode)
      (u v : EuclideanNode) :
  In (u, v) (reduced_edges p) ->
  (forall w, ~ weight_of g u v w) ->
  _path_len g p = Raise KeyError.
Proof.
  intros Hin Hno. apply (@path_len_missing g p u v Hin).
  destruct (edge_weight g u v) as [w | e] eqn:Ew.
  - exfalso. apply (Hno w). apply edge_weight_weight_of. exact Ew.
  - rewrite (edge_weight_error _ _ _ Ew). reflexivity.
Qed.

(** X13.  [_path_len] returns a number exactly when every two consecutive
    nodes of the path are joined by an edge, and the number is then the
    sum, taken from left to right from 0, of the weights of these edges
    (an edge without a weight counting 1); so it is 0 on a path of at most
    one node, and a path extended by one more edge is longer by that
    edge's weight, added last.  The only exception it raises is KeyError,
    which it does raise when some consecutive pair is not an edge. *)
Theorem path_len_laws (g : Graph) :
  (forall p l,
      _path_len g p = Ok l
      <-> exists ws, weights_along g p ws /\ l = route_weight ws)
  /\ (forall p, (len p <= 1)%nat -> _path_len g p = Ok 0)
  /\ (forall a u v l w,
         _path_len g (a ++ [u]) = Ok l ->
         weight_of g u v w ->
         _path_len g (a ++ [u; v]) = Ok (l + w))
  /\ (forall p e, _path_len g p = Raise e -> e = KeyError)
  /\ (forall p u v,
         In (u, v) (reduced_edges p) ->
         (forall w, ~ weight_of g u v w) ->
         _path_len g p = Raise KeyError).
Proof.
  split; [ | split; [ | split; [ | split ] ] ].
  - intros p l. apply path_len_weights.
  - intros [ | x [ | y p]]; cbn [List.length]; intros H;
      [ reflexivity | reflexivity | lia ].
  - intros a u v l w Hl Hw. apply path_len_weights in Hl.
    destruct Hl as [ws [Hws ->]]. apply path_len_weights.
    exists (ws ++ [w]). split.
    + apply weights_along_snoc; assumption.
    + symmetry. apply route_weight_snoc.
  - apply path_len_error.
  - apply path_len_absent.
Qed.

(** ** Brute force on a graph that is not complete *)

Lemma brute_loop_raises (graph : ReducedGraph)
      (perms : list (list EuclideanNode)) (p : list EuclideanNode) :
  In p perms ->
  _path_len (rgraph graph) (start graph :: p) = Raise KeyError ->
  forall best, brute_loop graph perms best = Raise KeyError.
Proof.
  intros Hin Hp. induction perms as [ | q perms IH]; [ destruct Hin | ].
  intros best. cbn [brute_loop].
  destruct (_path_len (rgraph graph) (start graph :: q)) as [l | e] eqn:Eq;
    cbn [bind].
  - destruct Hin as [-> | Hin]; [ congruence | ].
    destruct (shorter l best); apply IH; exact Hin.
  - rewrite (path_len_error _ _ Eq). reflexivity.
Qed.

(** X14.  [_brute_force] tries every ordering of the other nodes and skips
    none: when some ordering steps over a pair of nodes that is not an
    edge of the graph, the solver raises KeyError, whether or not another
    ordering is a path of the graph. *)
Theorem brute_force_needs_every_edge (graph : ReducedGraph)
        (p : list EuclideanNode) (u v : EuclideanNode) :
  Permutation (others graph) p ->
  In (u, v) (reduced_edges (start graph :: p)) ->
  edge_weight (rgraph graph) u v = Raise KeyError ->
  _brute_force graph = Raise KeyError.
Proof.
  intros Hp Hin Hw. unfold _brute_force. fold (others graph).
  apply brute_loop_raises with (p := p).
  - apply permutations_In. exact Hp.
  - apply path_len_missing with (u := u) (v := v); assumption.
Qed.

Lemma rgraph_SAB :
  rgraph reduced_SAB
  = [(room_S, [(room_A, Some 10)]);
     (room_A, [(room_S, Some 10); (room_B, Some 10)]);
     (room_B, [(room_A, Some 10)])].
Proof.
  unfold reduced_SAB, add_reduced_edge, ReducedGraph_init.
  cbn [rgraph]. graph_eval. reflexivity.
Qed.

Lemma others_SAB : others reduced_SAB = [room_A; room_B].
Proof.
  unfold others. rewrite rgraph_SAB.
  change (start reduced_SAB) with room_S.
  unfold node_eqb. cbn [nodes map fst filter]. node_decide.
  reflexivity.
Qed.

Lemma brute_force_needs_every_edge_witness :
  _brute_force reduced_SAB = Raise KeyError.
Proof.
  apply (@brute_force_needs_every_edge reduced_SAB [room_B; room_A]
           room_S room_B).
  - rewrite others_SAB. apply perm_swap.
  - left. reflexivity.
  - rewrite rgraph_SAB. weight_eval. reflexivity.
Defined.

(** ** The greedy route on a graph that need not be complete *)

(** Every step of the path is an edge of the graph. *)
Definition steps_in (g : Graph) (path : list EuclideanNode) : Prop :=
  forall u v,
    In (u, v) (reduced_edges path) -> exists w, edge_weight g u v = Ok w.

Lemma reduced_edges_snoc (l : list EuclideanNode) (cur m : EuclideanNode) :
  reduced_edges (l ++ [cur; m]) = reduced_edges (l ++ [cur]) ++ [(cur, m)].
Proof.
  induction l as [ | x l IH]; [ reflexivity | ].
  destruct l as [ | y l]; [ reflexivity | ].
  cbn [app] in *. rewrite !reduced_edges_cons, IH. reflexivity.
Qed.




Section GreedySimple.

Variable set_difference :
  list EuclideanNode -> list EuclideanNode -> list EuclideanNode.

Hypothesis set_difference_perm :
  forall s visited,
    Permutation (set_difference s visited) (unvisited_of s visited).




End GreedySimple.





(** ** The walk and the length that [tsp_solver] returns *)

(** The length of one leg: the weights of the path's edges in the base
    graph, summed from left to right along the path, or along the path
    reversed, which is the direction the search found it in when the leg
    is walked backwards. *)
Definition leg_length (base : Graph) (p : list EuclideanNode) (d : R) : Prop :=
  exists ws,
    (weights_along base p ws \/ weights_along base (rev p) ws)
    /\ d = route_weight ws.

(** Every stored path runs between the nodes of its key along edges of
    the base graph, and its reduced edge weighs what the path is long; a
    pair without a stored path is not an edge of the reduced graph. *)
Definition legs_ok (base : Graph) (r : ReducedGraph) : Prop :=
  forall x y,
    match dict_get edge_key_eq_dec (edge_dict r) (x, y) with
    | Some p =>
        joins (x, y) p
        /\ steps_in base p
        /\ exists d, edge_weight (rgraph r) x y = Ok d /\ leg_length base p d
    | None => edge_weight (rgraph r) x y = Raise KeyError
    end.

Lemma weights_steps (base : Graph) (p : list EuclideanNode) (ws : list R) :
  weights_along base p ws -> steps_in base p.
Proof.
  induction 1 as [ | u | u v rest w ws Hw Hrest IH]; intros a b Hin.
  - destruct Hin.
  - destruct Hin.
  - rewrite reduced_edges_cons in Hin. destruct Hin as [E | Hin].
    + injection E as <- <-. exists w. apply edge_weight_weight_of. exact Hw.
    + apply IH. exact Hin.
Qed.

Lemma reduced_edges_rev (p : list EuclideanNode) (u v : EuclideanNode) :
  In (u, v) (reduced_edges (rev p)) -> In (v, u) (reduced_edges p).
Proof.
  induction p as [ | x p IH]; [ intros [] | ].
  destruct p as [ | y p]; [ intros [] | ].
  change (rev (x :: y :: p)) with ((rev p ++ [y]) ++ [x]).
  rewrite <- app_assoc. cbn [app].
  rewrite reduced_edges_snoc, reduced_edges_cons, in_app_iff.
  intros [Hin | [E | []]].
  - right. apply IH. exact Hin.
  - injection E as <- <-. left. reflexivity.
Qed.

Lemma steps_in_rev (base : Graph) (p : list EuclideanNode) :
  (forall a b, edge_weight base a b = edge_weight base b a) ->
  steps_in base p -> steps_in base (rev p).
Proof.
  intros Hsym Hs u v Hin. apply reduced_edges_rev in Hin.
  destruct (Hs v u Hin) as [w Hw]. exists w. rewrite Hsym. exact Hw.
Qed.

Lemma reduced_edges_app (a : list EuclideanNode) (v : EuclideanNode)
      (t : list EuclideanNode) :
  reduced_edges (a ++ v :: t)
  = reduced_edges (a ++ [v]) ++ reduced_edges (v :: t).
Proof.
  induction a as [ | x a IH]; [ reflexivity | ].
  destruct a as [ | y a]; [ reflexivity | ].
  cbn [app] in *. rewrite !reduced_edges_cons, IH. reflexivity.
Qed.

Lemma legs_init (base : Graph) (s : EuclideanNode) :
  legs_ok base (ReducedGraph_init s).
Proof. intros x y. reflexivity. Qed.

Lemma legs_add (base : Graph) (r : ReducedGraph) (u v : EuclideanNode)
      (path : list EuclideanNode) (d : R) :
  (forall a b, edge_weight base a b = edge_weight base b a) ->
  legs_ok base r ->
  joins (u, v) path ->
  _path_len base path = Ok d ->
  legs_ok base (add_reduced_edge r u v path d).
Proof.
  intros Hsym Hr Hj Hd x y.
  apply path_len_weights in Hd. destruct Hd as [ws [Hws Hsum]].
  pose proof (weights_steps Hws) as Hsteps.
  destruct (add_reduced_edge_lookup r u v path d)
    as [Hvu [Huv [Hother [Hw [Hwb Hwo]]]]].
  destruct (edge_key_eq_dec (x, y) (v, u)) as [E | N1].
  - injection E as -> ->. rewrite Hvu.
    split; [ apply joins_rev, Hj | ].
    split; [ apply steps_in_rev; assumption | ].
    exists d. split; [ exact Hwb | ].
    exists ws. split; [ | exact Hsum ].
    right. rewrite rev_involutive. exact Hws.
  - destruct (edge_key_eq_dec (x, y) (u, v)) as [E | N2].
    + injection E as -> ->. rewrite Huv by congruence.
      split; [ exact Hj | ]. split; [ exact Hsteps | ].
      exists d. split; [ exact Hw | ].
      exists ws. split; [ left; exact Hws | exact Hsum ].
    + rewrite Hother, Hwo by assumption. apply Hr.
Qed.

Section SolverLegs.

Variable astar_path :
  Graph -> EuclideanNode -> EuclideanNode -> result (list EuclideanNode).

Variable g : EuclideanGraph.

(** The base graph is undirected. *)
Hypothesis base_symmetric :
  forall a b, edge_weight (graph g) a b = edge_weight (graph g) b a.

(** The search returns paths from its source to its target. *)
Hypothesis astar_joins :
  forall s t p, astar_path (graph g) s t = Ok p -> joins (s, t) p.

Lemma legs_reduce_step (r r' : ReducedGraph) (uv : string * string) :
  legs_ok (graph g) r ->
  reduce_step astar_path g r uv = Ok r' ->
  legs_ok (graph g) r'.
Proof.
  intros Hr. destruct uv as [u v]. unfold reduce_step.
  destruct (getitem string_dec (node_dict g) u) as [s | e]; cbn [bind];
    [ | discriminate ].
  destruct (getitem string_dec (node_dict g) v) as [t | e]; cbn [bind];
    [ | discriminate ].
  destruct (astar_path (graph g) s t) as [p | e] eqn:Ep; cbn [bind];
    [ | discriminate ].
  destruct (_path_len (graph g) p) as [d | e] eqn:Ed; cbn [bind];
    [ | discriminate ].
  intros [= <-]. apply legs_add; auto.
Qed.

Lemma legs_reduce_graph (names : list string) (start_name : string)
      (reduced : ReducedGraph) :
  _reduce_graph astar_path g names start_name = Ok reduced ->
  legs_ok (graph g) reduced.
Proof.
  unfold _reduce_graph.
  destruct (getitem string_dec (node_dict g) start_name) as [s | e];
    cbn [bind]; [ | discriminate ].
  apply foldM_invariant with (P := legs_ok (graph g)).
  - intros r uv r' _. apply legs_reduce_step.
  - apply legs_init.
Qed.

End SolverLegs.

(** The legs of a route of the reduced graph: one stored path for each
    two consecutive nodes, as long as the reduced edge weighs. *)
Lemma route_legs (base : Graph) (r : ReducedGraph) :
  legs_ok base r ->
  forall (route : list EuclideanNode) (ws : list R),
    weights_along (rgraph r) route ws ->
    exists paths,
      stored_paths r route paths
      /\ Forall2 joins (reduced_edges route) paths
      /\ Forall2 (leg_length base) paths ws
      /\ Forall (steps_in base) paths.
Proof.
  intros Hr. unfold stored_paths.
  induction 1 as [ | u | u v rest w ws Hw Hrest IH].
  - exists []. repeat split; constructor.
  - exists []. repeat split; constructor.
  - destruct IH as [paths [Hst [Hj [Hl Hs]]]].
    apply edge_weight_weight_of in Hw.
    specialize (Hr u v).
    destruct (dict_get edge_key_eq_dec (edge_dict r) (u, v)) as [p | ] eqn:Ep;
      [ | congruence ].
    destruct Hr as [Hjp [Hsp [d [Hd Hleg]]]].
    assert (d = w) by congruence. subst d.
    exists (p :: paths). rewrite reduced_edges_cons.
    repeat split; constructor; assumption.
Qed.

Lemma stitch_steps (base : Graph) (rest : list EuclideanNode) :
  forall (u v : EuclideanNode) (paths : list (list EuclideanNode)),
    Forall2 joins (reduced_edges (u :: v :: rest)) paths ->
    Forall (steps_in base) paths ->
    steps_in base (stitch paths).
Proof.
  induction rest as [ | w rest IH]; intros u v paths Hj Hs.
  - rewrite reduced_edges_cons in Hj.
    inversion Hj as [ | uv p es ps Hp Hrest]; subst.
    inversion Hrest; subst. inversion Hs; subst. exact H1.
  - rewrite reduced_edges_cons in Hj.
    inversion Hj as [ | uv p es ps Hp Hrest]; subst.
    inversion Hs as [ | p' ps' Hsp Hsps]; subst.
    pose proof (IH v w ps Hrest Hsps) as Htail.
    destruct (@stitch_endpoints rest v w ps Hrest) as [Hhd _].
    assert (Hst : stitch (p :: ps) = removelast p ++ stitch ps).
    { destruct ps as [ | p2 ps]; [ discriminate | reflexivity ]. }
    rewrite Hst.
    destruct (stitch ps) as [ | v' t]; [ discriminate | ].
    cbn in Hhd. injection Hhd as ->.
    intros a b Hin. rewrite reduced_edges_app, in_app_iff in Hin.
    destruct Hin as [Hin | Hin].
    + apply Hsp. rewrite (joins_snoc Hp). exact Hin.
    + apply Htail. exact Hin.
Qed.

Lemma brute_force_returns_route (graph : ReducedGraph) (path : list EuclideanNode)
      (l : R) :
  _brute_force graph = Ok (Some (path, l)) ->
  hd_error path = Some (start graph)
  /\ _path_len (rgraph graph) path = Ok l.
Proof.
  unfold _brute_force. intros H. apply brute_loop_sound in H.
  destruct H as [H | [p [lp [Hp [E Hl]]]]]; [ discriminate | ].
  injection E as -> ->. split; [ reflexivity | exact Hl ].
Qed.

Lemma greedy_returns_route
      (set_difference :
         list EuclideanNode -> list EuclideanNode -> list EuclideanNode)
      (graph : ReducedGraph) (path : list EuclideanNode) (l : R) :
  _greedy set_difference graph = Some (Ok (path, l)) ->
  hd_error path = Some (start graph)
  /\ _path_len (rgraph graph) path = Ok l.
Proof.
  unfold _greedy.
  destruct (greedy_loop set_difference (len (nodes (rgraph graph))) graph
                        (start graph) [start graph] [start graph])
    as [[res | e] | ] eqn:E; cbn [bind]; try discriminate.
  destruct (_path_len (rgraph graph) res) as [lr | e] eqn:El; cbn [bind];
    [ | discriminate ].
  intros [= <- <-]. apply greedy_loop_prefix in E. destruct E as [rest ->].
  split; [ reflexivity | exact El ].
Qed.

Lemma tsp_solver_route
      (set_difference :
         list EuclideanNode -> list EuclideanNode -> list EuclideanNode)
      (astar_path :
         Graph -> EuclideanNode -> EuclideanNode -> result (list EuclideanNode))
      (g : EuclideanGraph) (names : list string) (start_name algorithm : string)
      (full_path : list EuclideanNode) (length : R) :
  tsp_solver set_difference astar_path g names start_name algorithm
  = Some (Ok (full_path, length)) ->
  exists reduced route,
    _reduce_graph astar_path g names start_name = Ok reduced
    /\ hd_error route = Some (start reduced)
    /\ _path_len (rgraph reduced) route = Ok length
    /\ expand_path reduced route = Ok full_path.
Proof.
  unfold tsp_solver.
  destruct (_reduce_graph astar_path g names start_name)
    as [reduced | e] eqn:Ered; [ | discriminate ].
  destruct (String.eqb (lower algorithm) "greedy").
  - destruct (_greedy set_difference reduced) as [[[route l] | e] | ] eqn:Eg;
      cbn [bind]; try discriminate.
    destruct (expand_path reduced route) as [walk | e] eqn:Ew; cbn [bind];
      [ | discriminate ].
    intros [= <- <-]. apply greedy_returns_route in Eg. destruct Eg as [Hhd Hl].
    exists reduced, route. auto.
  - destruct (String.eqb (lower algorithm) "brute force");
      [ | discriminate ].
    destruct (_brute_force reduced) as [[[route l] | ] | e] eqn:Eb;
      cbn [bind]; try discriminate.
    destruct (expand_path reduced route) as [walk | e] eqn:Ew; cbn [bind];
      [ | discriminate ].
    intros [= <- <-]. apply brute_force_returns_route in Eb. destruct Eb as [Hhd Hl].
    exists reduced, route. auto.
Qed.

(** X4.  Over an undirected base graph and a search that returns paths
    from its source to its target, whenever [tsp_solver] returns
    [(full_path, length)] there are a route that begins at the node named
    [start] and, for each two consecutive nodes of the route, a path that
    joins them, such that [full_path] is these paths stitched together,
    each but the last without its final node; [full_path] is a walk of the
    base graph, every step of it an edge, that begins at the node named
    [start]; and [length] is the sum, from left to right, of one number
    for each path: the weights of the path's edges in the base graph,
    summed from left to right along the path or along its reverse. *)
Theorem tsp_solver_walk_length
        (set_difference :
           list EuclideanNode -> list EuclideanNode -> list EuclideanNode)
        (astar_path :
           Graph -> EuclideanNode -> EuclideanNode ->
           result (list EuclideanNode))
        (g : EuclideanGraph) (names : list string)
        (start_name algorithm : string)
        (full_path : list EuclideanNode) (length : R) :
  (forall a b, edge_weight (graph g) a b = edge_weight (graph g) b a) ->
  (forall s t p, astar_path (graph g) s t = Ok p -> joins (s, t) p) ->
  tsp_solver set_difference astar_path g names start_name algorithm
  = Some (Ok (full_path, length)) ->
  exists s route paths ds,
    dict_get string_dec (node_dict g) start_name = Some s
    /\ hd_error route = Some s
    /\ Forall2 joins (reduced_edges route) paths
    /\ Forall2 (leg_length (graph g)) paths ds
    /\ full_path = stitch paths
    /\ length = route_weight ds
    /\ steps_in (graph g) full_path
    /\ hd_error full_path = Some s.
Proof.
  intros Hsym Hastar Hrun.
  destruct (@tsp_solver_route set_difference astar_path g names start_name
              algorithm full_path length Hrun)
    as [reduced [route [Hred [Hhd [Hlen Hexp]]]]].
  pose proof (@legs_reduce_graph astar_path g Hsym Hastar names start_name
                reduced Hred) as Hlegs.
  apply path_len_weights in Hlen. destruct Hlen as [ds [Hds Hsum]].
  destruct (@route_legs (graph g) reduced Hlegs route ds Hds)
    as [paths [Hst [Hj [Hl Hs]]]].
  destruct route as [ | u [ | v rest]]; [ discriminate | discriminate | ].
  rewrite (@expand_path_stitch reduced rest u v paths Hst) in Hexp.
  injection Hexp as <-.
  destruct (@stitch_endpoints rest u v paths Hj) as [Hhd' _].
  cbn in Hhd. injection Hhd as ->.
  exists (start reduced), (start reduced :: v :: rest), paths, ds.
  split; [ apply reduce_graph_start with (astar_path := astar_path)
                                          (names := names); exact Hred | ].
  split; [ reflexivity | ].
  split; [ exact Hj | ].
  split; [ exact Hl | ].
  split; [ reflexivity | ].
  split; [ exact Hsum | ].
  split; [ apply (@stitch_steps (graph g) rest (start reduced) v paths Hj Hs) | exact Hhd' ].
Qed.

Lemma tsp_solver_walk_length_witness :
  exists s route paths ds,
    dict_get string_dec (node_dict two_rooms) "P"%string = Some s
    /\ hd_error route = Some s
    /\ Forall2 joins (reduced_edges route) paths
    /\ Forall2 (leg_length (graph two_rooms)) paths ds
    /\ [room_P; room_Q] = stitch paths
    /\ sum_R [sum_R [5]] = route_weight ds
    /\ steps_in (graph two_rooms) [room_P; room_Q]
    /\ hd_error [room_P; room_Q] = Some s.
Proof.
  apply (@tsp_solver_walk_length plain_difference direct_astar two_rooms
           ["P"%string; "Q"%string] "P"%string "brute force"%string).
  - exact two_rooms_symmetric.
  - intros s t p. apply direct_astar_joins.
  - exact tsp_two_rooms_brute_force.
Defined.
